(** * torch/ao/quantization/quantizer/utils.py

    A shallow embedding of the quantizer utilities: the two annotation
    helpers, the sym-size predicate, the conv/bn/unary pattern template and
    the memoised pattern-matcher accessors.

    Python objects are mutable and are passed by reference, so the helpers
    are modelled over an explicit heap: a node, a [QuantizationAnnotation]
    and an [input_qspec_map] dictionary each live at an address, and a field
    that holds an object holds its address. *)

From stdpp Require Import gmap strings list fin_maps.

(** ** Object identities *)

(** A [torch.fx.Node] is compared and hashed by identity. *)
Abbreviation Node := positive (only parsing).

(** Address of an annotation, dictionary or matcher object. *)
Abbreviation loc := positive (only parsing).

(** The [qspec] argument: a reference to an object this file never looks
    into, or Python's [None]. *)
Inductive QSpec :=
| QNone
| QObj (id : positive).

(** ** The heap *)

(** The two fields of a [QuantizationAnnotation] that this file reads or
    writes.  [input_qspec_map] is [None] or the address of a dictionary. *)
Record QuantizationAnnotation := mkQA {
  input_qspec_map : option loc;
  output_qspec : QSpec
}.

(** A value stored in [node.meta]: an annotation object, or any other
    object. *)
Inductive MetaVal :=
| MAnnotation (a : loc)
| MOther (o : positive).

(** [node.users] is a dictionary whose keys are the user nodes; only the
    keys, in insertion order, are kept. *)
Record NodeObj := mkNode {
  users : list Node;
  meta : gmap string MetaVal
}.

Record Heap := mkHeap {
  nodes : gmap Node NodeObj;
  annotations : gmap loc QuantizationAnnotation;
  dicts : gmap loc (gmap Node QSpec)
}.

Definition with_nodes (f : gmap Node NodeObj → gmap Node NodeObj) (h : Heap) : Heap :=
  mkHeap (f (nodes h)) (annotations h) (dicts h).

Definition with_annotations
    (f : gmap loc QuantizationAnnotation → gmap loc QuantizationAnnotation)
    (h : Heap) : Heap :=
  mkHeap (nodes h) (f (annotations h)) (dicts h).

Definition with_dicts
    (f : gmap loc (gmap Node QSpec) → gmap loc (gmap Node QSpec))
    (h : Heap) : Heap :=
  mkHeap (nodes h) (annotations h) (f (dicts h)).

Definition qa_key : string := "quantization_annotation".

(** ** Heap primitives

    Each returns [None] only on a reference to an object that is not in the
    heap, or on an attribute access to an object that is not an
    annotation. *)

(** [{}] or [dict(...)]: a new dictionary object. *)
Definition alloc_dict (m : gmap Node QSpec) (h : Heap) : loc * Heap :=
  let d := fresh (dom (dicts h)) in
  (d, with_dicts <[d := m]> h).

Definition alloc_annotation (r : QuantizationAnnotation) (h : Heap) : loc * Heap :=
  let a := fresh (dom (annotations h)) in
  (a, with_annotations <[a := r]> h).

(** [node.meta.get(key, dflt)] *)
Definition meta_get (node : Node) (key : string) (dflt : MetaVal) (h : Heap)
    : option MetaVal :=
  nd ← nodes h !! node;
  Some (default dflt (meta nd !! key)).

(** [node.meta[key] = v] *)
Definition meta_setitem (node : Node) (key : string) (v : MetaVal) (h : Heap)
    : option Heap :=
  nd ← nodes h !! node;
  Some (with_nodes <[node := mkNode (users nd) (<[key := v]> (meta nd))]> h).

(** The object a meta value refers to, when it is an annotation. *)
Definition as_annotation (v : MetaVal) : option loc :=
  match v with
  | MAnnotation a => Some a
  | MOther _ => None
  end.

(** [a.input_qspec_map] and [a.output_qspec] *)
Definition get_input_qspec_map (a : loc) (h : Heap) : option (option loc) :=
  input_qspec_map <$> annotations h !! a.

Definition get_output_qspec (a : loc) (h : Heap) : option QSpec :=
  output_qspec <$> annotations h !! a.

(** [a.input_qspec_map = v] *)
Definition set_input_qspec_map (a : loc) (v : option loc) (h : Heap) : option Heap :=
  r ← annotations h !! a;
  Some (with_annotations <[a := mkQA v (output_qspec r)]> h).

(** [a.output_qspec = q] *)
Definition set_output_qspec (a : loc) (q : QSpec) (h : Heap) : option Heap :=
  r ← annotations h !! a;
  Some (with_annotations <[a := mkQA (input_qspec_map r) q]> h).

(** [d[k] = q] *)
Definition dict_setitem (d : loc) (k : Node) (q : QSpec) (h : Heap) : option Heap :=
  m ← dicts h !! d;
  Some (with_dicts <[d := <[k := q]> m]> h).

(** ** The annotation helpers *)

(** The class [QuantizationAnnotation] is declared in
    [torch.ao.quantization.quantizer.quantizer]; what its constructor puts
    in the two fields is a parameter here.  [None] for the first means the
    field starts as [None]; [Some m] means it starts as a new dictionary
    with the entries [m]. *)
Class QuantizationAnnotationInit := {
  init_input_qspec_map : option (gmap Node QSpec);
  init_output_qspec : QSpec
}.

Section AnnotateDefs.

Context `{QuantizationAnnotationInit}.

(** [QuantizationAnnotation()] *)
Definition new_QuantizationAnnotation (h : Heap) : loc * Heap :=
  match init_input_qspec_map with
  | None => alloc_annotation (mkQA None init_output_qspec) h
  | Some m =>
      let '(d, h1) := alloc_dict m h in
      alloc_annotation (mkQA (Some d) init_output_qspec) h1
  end.

(** The default argument of [meta.get] is evaluated before the call, so an
    annotation object is built on every call and dropped when the key is
    already present. *)
Definition _annotate_input_qspec_map
    (node input_node : Node) (qspec : QSpec) (h : Heap) : option Heap :=
  let '(fresh_qa, h) := new_QuantizationAnnotation h in
  v ← meta_get node qa_key (MAnnotation fresh_qa) h;
  quantization_annotation ← as_annotation v;
  im ← get_input_qspec_map quantization_annotation h;
  h ← match im with
      | None =>
          let '(d, h) := alloc_dict ∅ h in
          set_input_qspec_map quantization_annotation (Some d) h
      | Some _ => Some h
      end;
  im ← get_input_qspec_map quantization_annotation h;
  d ← im;
  h ← dict_setitem d input_node qspec h;
  meta_setitem node qa_key (MAnnotation quantization_annotation) h.

Definition _annotate_output_qspec (node : Node) (qspec : QSpec) (h : Heap)
    : option Heap :=
  let '(fresh_qa, h) := new_QuantizationAnnotation h in
  v ← meta_get node qa_key (MAnnotation fresh_qa) h;
  quantization_annotation ← as_annotation v;
  h ← set_output_qspec quantization_annotation qspec h;
  meta_setitem node qa_key (MAnnotation quantization_annotation) h.

(** *** Reading a node's annotation back *)

(** [node.meta["quantization_annotation"]], when it is an annotation. *)
Definition annotation_of (h : Heap) (node : Node) : option loc :=
  nd ← nodes h !! node;
  v ← meta nd !! qa_key;
  as_annotation v.

(** [node.meta["quantization_annotation"].output_qspec] *)
Definition output_qspec_of (h : Heap) (node : Node) : option QSpec :=
  a ← annotation_of h node;
  get_output_qspec a h.

(** The entries of [node.meta["quantization_annotation"].input_qspec_map] *)
Definition input_qspec_map_of (h : Heap) (node : Node)
    : option (gmap Node QSpec) :=
  a ← annotation_of h node;
  im ← get_input_qspec_map a h;
  d ← im;
  dicts h !! d.

(** A node the helpers run on without a dangling reference: it is in the
    heap, and its annotation entry is absent or refers to an annotation
    whose [input_qspec_map] is [None] or a dictionary in the heap. *)
Definition annotatable (h : Heap) (node : Node) : bool :=
  match nodes h !! node with
  | None => false
  | Some nd =>
      match meta nd !! qa_key with
      | None => true
      | Some (MOther _) => false
      | Some (MAnnotation a) =>
          match annotations h !! a with
          | None => false
          | Some r =>
              match input_qspec_map r with
              | None => true
              | Some d => bool_decide (is_Some (dicts h !! d))
              end
          end
      end
  end.

(** The entries of the dictionary an [input_qspec_map] field refers to;
    none when the field is [None]. *)
Definition entries_at (h : Heap) (im : option loc) : gmap Node QSpec :=
  match im with
  | None => ∅
  | Some d => default ∅ (dicts h !! d)
  end.

(** The node object after [node.meta["quantization_annotation"] = a]. *)
Definition annotated_node (nd : NodeObj) (a : loc) : NodeObj :=
  mkNode (users nd) (<[qa_key := MAnnotation a]> (meta nd)).

(** The part of [_annotate_input_qspec_map] that runs once the annotation
    object [qa] is known. *)
Definition input_tail (qa : loc) (node input_node : Node) (qspec : QSpec)
    (h : Heap) : option Heap :=
  im ← get_input_qspec_map qa h;
  h ← match im with
      | None =>
          let '(d, h) := alloc_dict ∅ h in
          set_input_qspec_map qa (Some d) h
      | Some _ => Some h
      end;
  im ← get_input_qspec_map qa h;
  d ← im;
  h ← dict_setitem d input_node qspec h;
  meta_setitem node qa_key (MAnnotation qa) h.

(** The part of [_annotate_output_qspec] that runs once the annotation
    object [qa] is known. *)
Definition output_tail (qa : loc) (node : Node) (qspec : QSpec) (h : Heap)
    : option Heap :=
  h ← set_output_qspec qa qspec h;
  meta_setitem node qa_key (MAnnotation qa) h.

(** What a call finds on the node before it writes: the output spec and
    the input entries of the annotation it will update.  A node that has
    no annotation yet gets what the constructor provides. *)
Definition output_before (h : Heap) (node : Node) : QSpec :=
  default init_output_qspec (output_qspec_of h node).

Definition entries_before (h : Heap) (node : Node) : gmap Node QSpec :=
  match annotation_of h node with
  | Some a =>
      match annotations h !! a with
      | Some r => entries_at h (input_qspec_map r)
      | None => ∅
      end
  | None => default ∅ init_input_qspec_map
  end.

End AnnotateDefs.

(** The objects a call on [n] may write: the [meta] dictionary of [n] under
    the annotation key, the annotation object that [n] refers to afterwards
    and the dictionary that this annotation refers to.  Every other node,
    annotation and dictionary of [h] is the same in [h']. *)
Definition only_touches (n : Node) (h h' : Heap) : Prop :=
  (∀ m, m ≠ n → nodes h' !! m = nodes h !! m) ∧
  (∃ nd nd',
      nodes h !! n = Some nd ∧ nodes h' !! n = Some nd' ∧
      users nd' = users nd ∧
      ∀ k, k ≠ qa_key → meta nd' !! k = meta nd !! k) ∧
  (∀ l, l ∈ dom (annotations h) → Some l ≠ annotation_of h' n →
        annotations h' !! l = annotations h !! l) ∧
  (∀ l, l ∈ dom (dicts h) →
        Some (Some l) ≠ (annotation_of h' n ≫= λ a, get_input_qspec_map a h') →
        dicts h' !! l = dicts h !! l).

(** The objects of [n] in [h]: its [meta] entry under the annotation key,
    the annotation object that [n] refers to in [h] and the dictionary that
    this annotation refers to in [h].  A step from [h] to [h'] that
    [changes_only_objects_of n] leaves every other node, every other
    annotation of [h] and every other dictionary of [h] as it was; [n]
    keeps its users and its other [meta] entries.  Objects that were not in
    [h] are new, and no object of [h] refers to them. *)
Definition changes_only_objects_of (n : Node) (h h' : Heap) : Prop :=
  (∀ m, m ≠ n → nodes h' !! m = nodes h !! m) ∧
  (∃ nd nd',
      nodes h !! n = Some nd ∧ nodes h' !! n = Some nd' ∧
      users nd' = users nd ∧
      ∀ k, k ≠ qa_key → meta nd' !! k = meta nd !! k) ∧
  (∀ l, l ∈ dom (annotations h) → annotation_of h n ≠ Some l →
        annotations h' !! l = annotations h !! l) ∧
  (∀ l, l ∈ dom (dicts h) →
        (annotation_of h n ≫= λ a, get_input_qspec_map a h) ≠ Some (Some l) →
        dicts h' !! l = dicts h !! l).

(** Nodes [n] and [m] share neither an annotation object nor an
    [input_qspec_map] dictionary. *)
Definition unshared (h : Heap) (n m : Node) : Prop :=
  ∀ a b,
    annotation_of h n = Some a →
    annotation_of h m = Some b →
    a ≠ b ∧
    ∀ d, get_input_qspec_map a h = Some (Some d) →
         get_input_qspec_map b h ≠ Some (Some d).

(** ** Concrete heaps *)

(** A constructor that starts [input_qspec_map] as an empty dictionary, and
    one that starts it as [None]. *)
Definition init_empty_dict : QuantizationAnnotationInit :=
  {| init_input_qspec_map := Some ∅; init_output_qspec := QNone |}.

Definition init_none : QuantizationAnnotationInit :=
  {| init_input_qspec_map := None; init_output_qspec := QNone |}.

(** Node 1 is used by node 2; neither is annotated. *)
Definition heap0 : Heap :=
  mkHeap
    (<[1%positive := mkNode [2%positive] ∅]>
       (<[2%positive := mkNode [] (<["val" := MOther 7]> ∅)]> ∅))
    ∅ ∅.

(** Nodes 1 and 2 share one annotation object, as after a shallow copy of
    [meta]. *)
Definition heap_shared : Heap :=
  mkHeap
    (<[1%positive := mkNode [] (<[qa_key := MAnnotation 1]> ∅)]>
       (<[2%positive := mkNode [] (<[qa_key := MAnnotation 1]> ∅)]> ∅))
    (<[1%positive := mkQA None (QObj 9)]> ∅)
    ∅.

(** ** Nodes used only to read a size *)

(** [_is_sym_size_node] is imported from [torch.ao.quantization.pt2e.utils];
    it is a parameter here. *)
Class Pt2eUtils := {
  _is_sym_size_node : Node → bool
}.

Section SymSizeDefs.

Context `{Pt2eUtils}.

(** [user not in partition_nodes] compares nodes by identity. *)
Definition _node_only_used_for_sym_size
    (node : Node) (partition_nodes : list Node) (h : Heap) : option bool :=
  if _is_sym_size_node node then Some true
  else
    nd ← nodes h !! node;
    Some (forallb
            (λ user, negb (bool_decide (user ∈ partition_nodes))
                     || _is_sym_size_node user)
            (users nd)).

End SymSizeDefs.

(** A reading of [_is_sym_size_node] in which node 1 is the one sym-size
    node. *)
Definition only_node_1_is_sym_size : Pt2eUtils :=
  {| _is_sym_size_node := λ n, bool_decide (n = 1%positive) |}.

(** A reading in which no node is a sym-size node. *)
Definition no_sym_size_node : Pt2eUtils :=
  {| _is_sym_size_node := λ _, false |}.

(** ** Calls into the framework *)

(** A call into the framework returns a value or raises an exception. *)
Inductive Result (E A : Type) :=
| Ok (a : A)
| Raise (e : E).

Arguments Ok {E A} a.
Arguments Raise {E A} e.

Global Instance result_ret {E} : MRet (Result E) := λ A a, Ok a.

Global Instance result_bind {E} : MBind (Result E) := λ A B k r,
  match r with
  | Ok a => k a
  | Raise e => Raise e
  end.

(** ** The conv / batch-norm / unary template *)

(** The operators of [torch.nn.functional] that the file names.  [Val] is
    whatever the template is run on (tensors, or the proxies of a trace). *)
Class TorchFunctional := {
  Val : Type;
  Exn : Type;
  conv2d : Val → Val → Val → Result Exn Val;
  batch_norm :
    Val → option Val → option Val → option Val → option Val → bool →
    Result Exn Val;
  relu : Val → Result Exn Val;
  relu_ : Val → Result Exn Val;
  hardtanh : Val → Result Exn Val;
  hardtanh_ : Val → Result Exn Val;
  relu6 : Val → Result Exn Val;
  (** [torch.nn.ReLU6(inplace=True)], called as a function *)
  ReLU6_inplace : Val → Result Exn Val
}.

Section PatternDefs.

Context `{TorchFunctional}.

(** The type of [_conv_unary]: the four batch-norm arguments default to
    [None]; the result is the output and the name map, whose keys are kept
    in the order of the dictionary display. *)
Definition PatternFn : Type :=
  Val → Val → Val → option Val → option Val → option Val → option Val →
  Result Exn (Val * list (string * Val)).

Definition _get_conv_unary_pattern
    (conv_fn : Val → Val → Val → Result Exn Val)
    (has_bn : bool)
    (unary_fn : option (Val → Result Exn Val)) : PatternFn :=
  λ x conv_weight conv_bias bn_weight bn_bias bn_rm bn_rv,
    conv ← conv_fn x conv_weight conv_bias;
    bn ← (if has_bn
          then batch_norm conv bn_rm bn_rv bn_weight bn_bias true
          else Ok conv);
    unary ← match unary_fn with
            | Some f => f bn
            | None => Ok bn
            end;
    let output := unary in
    Ok (output,
        [("input", x);
         ("conv", conv);
         ("conv_weight", conv_weight);
         ("conv_bias", conv_bias);
         ("bn", bn);
         ("unary", unary);
         ("output", output)]).

(** The keys of the name map. *)
Definition name_map_keys : list string :=
  ["input"; "conv"; "conv_weight"; "conv_bias"; "bn"; "unary"; "output"].

End PatternDefs.

(** Integers standing in for tensors; every operator returns. *)
Definition torch_on_Z : TorchFunctional := {|
  Val := Z;
  Exn := string;
  conv2d := λ x w b, Ok (x * w + b)%Z;
  batch_norm := λ x _ _ _ _ _, Ok (x + 100)%Z;
  relu := λ x, Ok (Z.max 0 x);
  relu_ := λ x, Ok (Z.max 0 x);
  hardtanh := λ x, Ok (Z.max (-1) (Z.min 1 x));
  hardtanh_ := λ x, Ok (Z.max (-1) (Z.min 1 x));
  relu6 := λ x, Ok (Z.max 0 (Z.min 6 x));
  ReLU6_inplace := λ x, Ok (Z.max 0 (Z.min 6 x))
|}.

(** ** The cached pattern matchers *)

(** What the file calls in [torch.ao.quantization.pt2e.utils] and
    [torch.fx]: each call runs on the state [Ext] of the framework and
    returns a value or raises. *)
Class TorchFx `{TorchFunctional} := {
  Ext : Type;
  GraphModule : Type;
  ExampleInputs : Type;
  Matcher : Type;
  _conv2d_example_inputs : ExampleInputs;
  _conv2d_bn_example_inputs : ExampleInputs;
  get_aten_graph_module :
    PatternFn → ExampleInputs → Ext → Result Exn GraphModule * Ext;
  (** [pattern.graph.eliminate_dead_code()] *)
  eliminate_dead_code : GraphModule → Ext → Result Exn unit * Ext;
  (** [pattern.recompile()] *)
  recompile : GraphModule → Ext → Result Exn unit * Ext;
  (** [SubgraphMatcherWithNameNodeMap.__init__(pattern, ignore_literals)] *)
  matcher_init : GraphModule → bool → Ext → Result Exn Matcher * Ext
}.

(** The eight decorated functions; each names its own cache. *)
Inductive Accessor :=
| Conv2d
| Conv2dBn
| Conv2dRelu
| Conv2dInplaceRelu
| Conv2dHardtanh
| Conv2dInplaceHardtanh
| Conv2dRelu6
| Conv2dInplaceRelu6.

Global Instance Accessor_eq_dec : EqDecision Accessor.
Proof. solve_decision. Defined.

Definition Accessor_to_nat (f : Accessor) : nat :=
  match f with
  | Conv2d => 0
  | Conv2dBn => 1
  | Conv2dRelu => 2
  | Conv2dInplaceRelu => 3
  | Conv2dHardtanh => 4
  | Conv2dInplaceHardtanh => 5
  | Conv2dRelu6 => 6
  | Conv2dInplaceRelu6 => 7
  end.

Definition Accessor_of_nat (n : nat) : option Accessor :=
  match n with
  | 0 => Some Conv2d
  | 1 => Some Conv2dBn
  | 2 => Some Conv2dRelu
  | 3 => Some Conv2dInplaceRelu
  | 4 => Some Conv2dHardtanh
  | 5 => Some Conv2dInplaceHardtanh
  | 6 => Some Conv2dRelu6
  | 7 => Some Conv2dInplaceRelu6
  | _ => None
  end.

Global Program Instance Accessor_countable : Countable Accessor :=
  inj_countable Accessor_to_nat Accessor_of_nat _.
Next Obligation. by intros []. Qed.

Section MatcherDefs.

Context `{TorchFx}.

(** The state of the process: the framework, the matcher objects, and the
    caches of the decorated functions (no argument, so one slot each). *)
Record World := mkWorld {
  ext : Ext;
  matchers : gmap loc Matcher;
  caches : gmap Accessor loc
}.

(** A computation on the process state. *)
Definition M (A : Type) : Type := World → Result Exn A * World.

Global Instance M_ret : MRet M := λ A a w, (Ok a, w).

Global Instance M_bind : MBind M := λ A B k m w,
  match m w with
  | (Ok a, w') => k a w'
  | (Raise e, w') => (Raise e, w')
  end.

(** A call into the framework. *)
Definition call {A} (f : Ext → Result Exn A * Ext) : M A := λ w,
  let '(r, x) := f (ext w) in
  (r, mkWorld x (matchers w) (caches w)).

(** [SubgraphMatcherWithNameNodeMap(pattern, ignore_literals=...)]: a new
    object, initialised by [__init__]. *)
Definition SubgraphMatcherWithNameNodeMap
    (pattern : GraphModule) (ignore_literals : bool) : M loc := λ w,
  let l := fresh (dom (matchers w)) in
  match matcher_init pattern ignore_literals (ext w) with
  | (Ok m, x) => (Ok l, mkWorld x (<[l := m]> (matchers w)) (caches w))
  | (Raise e, x) => (Raise e, mkWorld x (matchers w) (caches w))
  end.

Definition _generate_pattern_matcher_helper
    (pattern : PatternFn) (example_inputs : ExampleInputs) : M loc :=
  pattern ← call (get_aten_graph_module pattern example_inputs);
  _ ← call (eliminate_dead_code pattern);
  _ ← call (recompile pattern);
  SubgraphMatcherWithNameNodeMap pattern true.

(** [functools.lru_cache(None)] on a function of no argument: the cache of
    [f] is looked up first; on a miss the function runs and its result is
    stored; a call that raises stores nothing.  The hit and miss counters of
    the wrapper are left out. *)
Definition lru_cache (f : Accessor) (user_function : M loc) : M loc := λ w,
  match caches w !! f with
  | Some result => (Ok result, w)
  | None =>
      match user_function w with
      | (Ok result, w') =>
          (Ok result,
           mkWorld (ext w') (matchers w') (<[f := result]> (caches w')))
      | (Raise e, w') => (Raise e, w')
      end
  end.

Definition _generate_conv2d_pattern_matcher : M loc :=
  lru_cache Conv2d
    (_generate_pattern_matcher_helper
       (_get_conv_unary_pattern conv2d false None)
       _conv2d_example_inputs).

Definition _generate_conv2d_bn_pattern_matcher : M loc :=
  lru_cache Conv2dBn
    (_generate_pattern_matcher_helper
       (_get_conv_unary_pattern conv2d true None)
       _conv2d_bn_example_inputs).

Definition _generate_conv2d_relu_pattern_matcher : M loc :=
  lru_cache Conv2dRelu
    (_generate_pattern_matcher_helper
       (_get_conv_unary_pattern conv2d false (Some relu))
       _conv2d_example_inputs).

Definition _generate_conv2d_inplace_relu_pattern_matcher : M loc :=
  lru_cache Conv2dInplaceRelu
    (_generate_pattern_matcher_helper
       (_get_conv_unary_pattern conv2d false (Some relu_))
       _conv2d_example_inputs).

Definition _generate_conv2d_hardtanh_pattern_matcher : M loc :=
  lru_cache Conv2dHardtanh
    (_generate_pattern_matcher_helper
       (_get_conv_unary_pattern conv2d false (Some hardtanh))
       _conv2d_example_inputs).

Definition _generate_conv2d_inplace_hardtanh_pattern_matcher : M loc :=
  lru_cache Conv2dInplaceHardtanh
    (_generate_pattern_matcher_helper
       (_get_conv_unary_pattern conv2d false (Some hardtanh_))
       _conv2d_example_inputs).

Definition _generate_conv2d_relu6_pattern_matcher : M loc :=
  lru_cache Conv2dRelu6
    (_generate_pattern_matcher_helper
       (_get_conv_unary_pattern conv2d false (Some relu6))
       _conv2d_example_inputs).

Definition _generate_conv2d_inplace_relu6_pattern_matcher : M loc :=
  lru_cache Conv2dInplaceRelu6
    (_generate_pattern_matcher_helper
       (_get_conv_unary_pattern conv2d false (Some ReLU6_inplace))
       _conv2d_example_inputs).

End MatcherDefs.

Section ProcessDefs.

Context `{TorchFx}.

(** The decorated function that an [Accessor] names, and the template and
    example inputs that its body passes to the helper. *)
Definition accessor (f : Accessor) : M loc :=
  match f with
  | Conv2d => _generate_conv2d_pattern_matcher
  | Conv2dBn => _generate_conv2d_bn_pattern_matcher
  | Conv2dRelu => _generate_conv2d_relu_pattern_matcher
  | Conv2dInplaceRelu => _generate_conv2d_inplace_relu_pattern_matcher
  | Conv2dHardtanh => _generate_conv2d_hardtanh_pattern_matcher
  | Conv2dInplaceHardtanh => _generate_conv2d_inplace_hardtanh_pattern_matcher
  | Conv2dRelu6 => _generate_conv2d_relu6_pattern_matcher
  | Conv2dInplaceRelu6 => _generate_conv2d_inplace_relu6_pattern_matcher
  end.

Definition accessor_pattern (f : Accessor) : PatternFn :=
  match f with
  | Conv2d => _get_conv_unary_pattern conv2d false None
  | Conv2dBn => _get_conv_unary_pattern conv2d true None
  | Conv2dRelu => _get_conv_unary_pattern conv2d false (Some relu)
  | Conv2dInplaceRelu => _get_conv_unary_pattern conv2d false (Some relu_)
  | Conv2dHardtanh => _get_conv_unary_pattern conv2d false (Some hardtanh)
  | Conv2dInplaceHardtanh =>
      _get_conv_unary_pattern conv2d false (Some hardtanh_)
  | Conv2dRelu6 => _get_conv_unary_pattern conv2d false (Some relu6)
  | Conv2dInplaceRelu6 =>
      _get_conv_unary_pattern conv2d false (Some ReLU6_inplace)
  end.

Definition accessor_inputs (f : Accessor) : ExampleInputs :=
  match f with
  | Conv2dBn => _conv2d_bn_example_inputs
  | _ => _conv2d_example_inputs
  end.

Definition accessor_body (f : Accessor) : M loc :=
  _generate_pattern_matcher_helper (accessor_pattern f) (accessor_inputs f).

(** [later w w']: the process goes from [w] to [w'] by calls of the
    decorated functions, whatever they return, and by other code of the
    process.  Other code runs the framework and builds objects; it does not
    reach the caches, which only the wrappers hold, and the matcher objects
    that exist stay. *)
Inductive later : World → World → Prop :=
| later_now w :
    later w w
| later_call w f r w1 w2 :
    accessor f w = (r, w1) → later w1 w2 → later w w2
| later_host w w1 w2 :
    caches w1 = caches w →
    dom (matchers w) ⊆ dom (matchers w1) →
    later w1 w2 → later w w2.

(** A state of a process that started with empty caches. *)
Definition process_state (w : World) : Prop :=
  ∃ w0, caches w0 = ∅ ∧ later w0 w.

(** The cached objects exist, and no two caches hold the same object. *)
Definition caches_ok (w : World) : Prop :=
  (∀ f l, caches w !! f = Some l → l ∈ dom (matchers w)) ∧
  (∀ f g l, caches w !! f = Some l → caches w !! g = Some l → f = g).

(** One of the four framework calls of the helper raises [e] and leaves the
    process in [w']; the calls before it returned. *)
Inductive helper_call_raises
    (pattern : PatternFn) (example_inputs : ExampleInputs)
    (w : World) (e : Exn) (w' : World) : Prop :=
| raises_in_get_aten_graph_module :
    call (get_aten_graph_module pattern example_inputs) w = (Raise e, w') →
    helper_call_raises pattern example_inputs w e w'
| raises_in_eliminate_dead_code g w1 :
    call (get_aten_graph_module pattern example_inputs) w = (Ok g, w1) →
    call (eliminate_dead_code g) w1 = (Raise e, w') →
    helper_call_raises pattern example_inputs w e w'
| raises_in_recompile g w1 w2 :
    call (get_aten_graph_module pattern example_inputs) w = (Ok g, w1) →
    call (eliminate_dead_code g) w1 = (Ok (), w2) →
    call (recompile g) w2 = (Raise e, w') →
    helper_call_raises pattern example_inputs w e w'
| raises_in_matcher g w1 w2 w3 :
    call (get_aten_graph_module pattern example_inputs) w = (Ok g, w1) →
    call (eliminate_dead_code g) w1 = (Ok (), w2) →
    call (recompile g) w2 = (Ok (), w3) →
    SubgraphMatcherWithNameNodeMap g true w3 = (Raise e, w') →
    helper_call_raises pattern example_inputs w e w'.

End ProcessDefs.

(** A framework in which every call returns: the state counts the calls. *)
Definition fx_counting : TorchFx (H := torch_on_Z) := {|
  Ext := nat;
  GraphModule := nat;
  ExampleInputs := bool;
  Matcher := nat;
  _conv2d_example_inputs := false;
  _conv2d_bn_example_inputs := true;
  get_aten_graph_module := λ _ _ x, (Ok x, S x);
  eliminate_dead_code := λ _ x, (Ok (), S x);
  recompile := λ _ x, (Ok (), S x);
  matcher_init := λ g _ x, (Ok g, S x)
|}.

(** The process at its start, on [fx_counting]. *)
Definition world0 : World (H0 := fx_counting) :=
  mkWorld (H0 := fx_counting) 0 ∅ ∅.

(** The process after one call of [f] from [w]. *)
Definition world_after (f : Accessor) (w : World (H0 := fx_counting))
    : World (H0 := fx_counting) :=
  (accessor (H0 := fx_counting) f w).2.

(** ** Sequences of calls and sharing *)

Section ComposeDefs.

Context `{QuantizationAnnotationInit}.

(** [_annotate_input_qspec_map(node, i, q)] for each [(i, q)] of a list, in
    order. *)
Fixpoint annotate_inputs (node : Node) (l : list (Node * QSpec)) (h : Heap)
    : option Heap :=
  match l with
  | [] => Some h
  | (input_node, qspec) :: l =>
      h ← _annotate_input_qspec_map node input_node qspec h;
      annotate_inputs node l h
  end.

End ComposeDefs.

(** Node 1 has an annotation whose [input_qspec_map] is [None]; node 2 has
    its own annotation with one entry. *)
Definition heap_two : Heap :=
  mkHeap
    (<[1%positive := mkNode [2%positive] (<[qa_key := MAnnotation 1]> ∅)]>
       (<[2%positive := mkNode [] (<[qa_key := MAnnotation 2]> ∅)]> ∅))
    (<[1%positive := mkQA None (QObj 9)]>
       (<[2%positive := mkQA (Some 1%positive) QNone]> ∅))
    (<[1%positive := <[7%positive := QObj 3]> ∅]> ∅).

(** A framework in which [recompile] raises and every other call returns. *)
Definition fx_recompile_raises : TorchFx (H := torch_on_Z) := {|
  Ext := nat;
  GraphModule := nat;
  ExampleInputs := bool;
  Matcher := nat;
  _conv2d_example_inputs := false;
  _conv2d_bn_example_inputs := true;
  get_aten_graph_module := λ _ _ x, (Ok x, S x);
  eliminate_dead_code := λ _ x, (Ok (), S x);
  recompile := λ _ x,
    (Raise ("recompile" : Exn (TorchFunctional := torch_on_Z)), S x);
  matcher_init := λ g _ x, (Ok g, S x)
|}.

Definition world0_raising : World (H0 := fx_recompile_raises) :=
  mkWorld (H0 := fx_recompile_raises) 0 ∅ ∅.

Section CacheDefs.

Context `{TorchFx}.

(** [f.cache_clear()] of the wrapper that [functools.lru_cache] returns:
    it empties the cache of [f].  Nothing in the file calls it. *)
Definition cache_clear (f : Accessor) (w : World) : World :=
  mkWorld (ext w) (matchers w) (delete f (caches w)).

End CacheDefs.
(** * Theorems *)

(** ** The annotation helpers *)

Section AnnotateTheory.

Context `{QuantizationAnnotationInit}.

(** *** The constructor *)

(** The constructor adds one annotation object, and one dictionary when
    the field starts as a dictionary; nothing else changes. *)
Lemma new_QuantizationAnnotation_effect h a h1 :
  new_QuantizationAnnotation h = (a, h1) →
  nodes h1 = nodes h ∧
  (a ∉ dom (annotations h)) ∧
  ∃ im,
    annotations h1 = <[a := mkQA im init_output_qspec]> (annotations h) ∧
    match im, init_input_qspec_map with
    | None, None => dicts h1 = dicts h
    | Some d, Some m0 => (d ∉ dom (dicts h)) ∧ dicts h1 = <[d := m0]> (dicts h)
    | _, _ => False
    end.
Proof.
  unfold new_QuantizationAnnotation, alloc_annotation, alloc_dict.
  destruct init_input_qspec_map as [m0|]; simpl; intros [= <- <-]; simpl.
  - split_and!; [done | apply is_fresh |].
    eexists (Some _). split_and!; [done | apply is_fresh | done].
  - split_and!; [done | apply is_fresh |].
    by exists None.
Qed.

Lemma _annotate_input_qspec_map_unfold node input_node qspec h :
  _annotate_input_qspec_map node input_node qspec h =
  let '(fresh_qa, h1) := new_QuantizationAnnotation h in
  v ← meta_get node qa_key (MAnnotation fresh_qa) h1;
  qa ← as_annotation v;
  input_tail qa node input_node qspec h1.
Proof. reflexivity. Qed.

Lemma input_tail_effect h a r n nd i q :
  nodes h !! n = Some nd →
  annotations h !! a = Some r →
  (∀ d, input_qspec_map r = Some d → is_Some (dicts h !! d)) →
  ∃ h' d,
    input_tail a n i q h = Some h' ∧
    nodes h' = <[n := annotated_node nd a]> (nodes h) ∧
    annotations h' = <[a := mkQA (Some d) (output_qspec r)]> (annotations h) ∧
    dicts h' = <[d := <[i := q]> (entries_at h (input_qspec_map r))]> (dicts h) ∧
    match input_qspec_map r with
    | Some d0 => d = d0
    | None => d ∉ dom (dicts h)
    end.
Proof.
  intros Hn Ha Hd. unfold input_tail, get_input_qspec_map.
  rewrite Ha. simpl.
  destruct r as [[d0|] o]; simpl.
  - destruct (Hd d0 eq_refl) as [m Hm].
    rewrite Ha. simpl. unfold dict_setitem. rewrite Hm. simpl.
    unfold meta_setitem. simpl. rewrite Hn. simpl.
    eexists _, d0. split_and!; [done | done | | | done].
    + simpl. by rewrite insert_id.
    + done.
  - unfold set_input_qspec_map. simpl. rewrite Ha. simpl.
    rewrite lookup_insert_eq. simpl.
    unfold dict_setitem. simpl. rewrite lookup_insert_eq. simpl.
    unfold meta_setitem. simpl. rewrite Hn. simpl.
    eexists _, _. split_and!; [done | done | done | | apply is_fresh].
    simpl. by rewrite insert_insert_eq.
Qed.

Lemma annotate_input_effect h n i q :
  annotatable h n = true →
  ∃ h' nd a d,
    _annotate_input_qspec_map n i q h = Some h' ∧
    nodes h !! n = Some nd ∧
    nodes h' = <[n := annotated_node nd a]> (nodes h) ∧
    annotations h' !! a = Some (mkQA (Some d) (output_before h n)) ∧
    dicts h' !! d = Some (<[i := q]> (entries_before h n)) ∧
    (∀ l, l ≠ a → l ∈ dom (annotations h) →
          annotations h' !! l = annotations h !! l) ∧
    (∀ l, l ≠ d → l ∈ dom (dicts h) → dicts h' !! l = dicts h !! l) ∧
    match annotation_of h n with
    | Some a0 =>
        a = a0 ∧
        ∀ r d0, annotations h !! a0 = Some r →
                input_qspec_map r = Some d0 → d = d0
    | None => (a ∉ dom (annotations h)) ∧ (d ∉ dom (dicts h))
    end.
Proof.
  unfold annotatable. intros Hok.
  destruct (nodes h !! n) as [nd|] eqn:Hn; [|done].
  rewrite _annotate_input_qspec_map_unfold.
  unfold output_before, entries_before, output_qspec_of, annotation_of,
    get_output_qspec.
  rewrite Hn. simpl.
  destruct (new_QuantizationAnnotation h) as [fa h1] eqn:Hnew.
  destruct (new_QuantizationAnnotation_effect _ _ _ Hnew)
    as (Hnodes & Hfa & im & Hann & Hdicts).
  unfold meta_get. rewrite Hnodes, Hn. simpl.
  assert (∀ d m, dicts h !! d = Some m → dicts h1 !! d = Some m) as Hkeep.
  { intros d m Hd. destruct im as [dn|], init_input_qspec_map as [m0|];
      try done; [|by rewrite Hdicts].
    destruct Hdicts as [Hdn ->]. rewrite lookup_insert_ne; [done|].
    intros ->. apply Hdn, elem_of_dom. eauto. }
  assert (∀ l, l ∈ dom (annotations h) → annotations h1 !! l = annotations h !! l)
    as Hkeepa.
  { intros l Hl. rewrite Hann, lookup_insert_ne; [done|]. by intros ->. }
  destruct (meta nd !! qa_key) as [[a0|?]|] eqn:Hm; [|done|]; simpl.
  - destruct (annotations h !! a0) as [r|] eqn:Ha; [|done]. simpl.
    assert (a0 ∈ dom (annotations h)) as Ha0 by (apply elem_of_dom; eauto).
    destruct (input_tail_effect h1 a0 r n nd i q)
      as (h' & d & Hrun & Hn' & Ha' & Hd' & Hwhich).
    + by rewrite Hnodes.
    + by rewrite Hkeepa.
    + intros d Hd. rewrite Hd in Hok.
      apply bool_decide_eq_true in Hok as [m Hm']. exists m. by apply Hkeep.
    + exists h', nd, a0, d. rewrite Hrun, Hn', Hnodes, Ha', Hd'.
      rewrite !lookup_insert_eq.
      split_and!; try done.
      * do 2 f_equal. destruct (input_qspec_map r) as [d0|]; [|done]. simpl.
        apply bool_decide_eq_true in Hok as [m Hm'].
        by rewrite Hm', (Hkeep _ _ Hm').
      * intros l Hl Hdom. rewrite lookup_insert_ne by done. by apply Hkeepa.
      * intros l Hl Hdom. rewrite lookup_insert_ne by done.
        apply elem_of_dom in Hdom as [m Hm']. by rewrite Hm', (Hkeep _ _ Hm').
      * intros r0 d0 [= <-] Hr. by rewrite Hr in Hwhich.
  - destruct (input_tail_effect h1 fa (mkQA im init_output_qspec) n nd i q)
      as (h' & d & Hrun & Hn' & Ha' & Hd' & Hwhich).
    + by rewrite Hnodes.
    + by rewrite Hann, lookup_insert_eq.
    + simpl. intros d ->.
      destruct init_input_qspec_map as [m0|]; [|done].
      destruct Hdicts as [_ ->]. rewrite lookup_insert_eq. eauto.
    + exists h', nd, fa, d. rewrite Hrun, Hn', Hnodes, Ha', Hd'.
      rewrite !lookup_insert_eq. simpl in Hwhich |- *.
      assert (d ∉ dom (dicts h)) as Hdfresh.
      { destruct im as [dn|], init_input_qspec_map as [m0|]; try done.
        - subst d. apply Hdicts.
        - by rewrite <- Hdicts. }
      split_and!; try done.
      * do 2 f_equal.
        destruct im as [dn|], init_input_qspec_map as [m0|]; try done.
        simpl. destruct Hdicts as [_ ->]. by rewrite lookup_insert_eq.
      * intros l Hl Hdom. rewrite lookup_insert_ne by done. by apply Hkeepa.
      * intros l Hl Hdom. rewrite lookup_insert_ne by done.
        apply elem_of_dom in Hdom as [m Hm']. by rewrite Hm', (Hkeep _ _ Hm').
Qed.

Lemma _annotate_output_qspec_unfold node qspec h :
  _annotate_output_qspec node qspec h =
  let '(fresh_qa, h1) := new_QuantizationAnnotation h in
  v ← meta_get node qa_key (MAnnotation fresh_qa) h1;
  qa ← as_annotation v;
  output_tail qa node qspec h1.
Proof. reflexivity. Qed.

Lemma output_tail_effect h a r n nd q :
  nodes h !! n = Some nd →
  annotations h !! a = Some r →
  ∃ h',
    output_tail a n q h = Some h' ∧
    nodes h' = <[n := annotated_node nd a]> (nodes h) ∧
    annotations h' = <[a := mkQA (input_qspec_map r) q]> (annotations h) ∧
    dicts h' = dicts h.
Proof.
  intros Hn Ha. unfold output_tail, set_output_qspec, meta_setitem.
  rewrite Ha. simpl. rewrite Hn. simpl. eauto.
Qed.

Lemma annotate_output_effect h n q :
  annotatable h n = true →
  ∃ h' nd a im,
    _annotate_output_qspec n q h = Some h' ∧
    nodes h !! n = Some nd ∧
    nodes h' = <[n := annotated_node nd a]> (nodes h) ∧
    annotations h' !! a = Some (mkQA im q) ∧
    (∀ d, im = Some d → is_Some (dicts h' !! d)) ∧
    (∀ l, l ≠ a → l ∈ dom (annotations h) →
          annotations h' !! l = annotations h !! l) ∧
    (∀ l, l ∈ dom (dicts h) → dicts h' !! l = dicts h !! l) ∧
    match annotation_of h n with
    | Some a0 =>
        a = a0 ∧ ∀ r, annotations h !! a0 = Some r → im = input_qspec_map r
    | None =>
        (a ∉ dom (annotations h)) ∧
        match im with
        | None => init_input_qspec_map = None
        | Some d =>
            (d ∉ dom (dicts h)) ∧
            ∃ m0, init_input_qspec_map = Some m0 ∧ dicts h' !! d = Some m0
        end
    end.
Proof.
  unfold annotatable. intros Hok.
  destruct (nodes h !! n) as [nd|] eqn:Hn; [|done].
  rewrite _annotate_output_qspec_unfold. unfold annotation_of.
  rewrite Hn. simpl.
  destruct (new_QuantizationAnnotation h) as [fa h1] eqn:Hnew.
  destruct (new_QuantizationAnnotation_effect _ _ _ Hnew)
    as (Hnodes & Hfa & im & Hann & Hdicts).
  unfold meta_get. rewrite Hnodes, Hn. simpl.
  assert (∀ d m, dicts h !! d = Some m → dicts h1 !! d = Some m) as Hkeep.
  { intros d m Hd. destruct im as [dn|], init_input_qspec_map as [m0|];
      try done; [|by rewrite Hdicts].
    destruct Hdicts as [Hdn ->]. rewrite lookup_insert_ne; [done|].
    intros ->. apply Hdn, elem_of_dom. eauto. }
  assert (∀ l, l ∈ dom (dicts h) → dicts h1 !! l = dicts h !! l) as Hkeepd.
  { intros l [m Hl]%elem_of_dom. by rewrite Hl, (Hkeep _ _ Hl). }
  assert (∀ l, l ∈ dom (annotations h) → annotations h1 !! l = annotations h !! l)
    as Hkeepa.
  { intros l Hl. rewrite Hann, lookup_insert_ne; [done|]. by intros ->. }
  destruct (meta nd !! qa_key) as [[a0|?]|] eqn:Hm; [|done|]; simpl.
  - destruct (annotations h !! a0) as [r|] eqn:Ha; [|done].
    assert (a0 ∈ dom (annotations h)) as Ha0 by (apply elem_of_dom; eauto).
    destruct (output_tail_effect h1 a0 r n nd q)
      as (h' & Hrun & Hn' & Ha' & Hd').
    + by rewrite Hnodes.
    + by rewrite Hkeepa.
    + exists h', nd, a0, (input_qspec_map r).
      rewrite Hrun, Hn', Hnodes, Ha', Hd'. rewrite lookup_insert_eq.
      split_and!; try done.
      * intros d Hd. rewrite Hd in Hok.
        apply bool_decide_eq_true in Hok as [m Hm']. exists m. by apply Hkeep.
      * intros l Hl Hdom. rewrite lookup_insert_ne by done. by apply Hkeepa.
      * by intros r0 [= <-].
  - destruct (output_tail_effect h1 fa (mkQA im init_output_qspec) n nd q)
      as (h' & Hrun & Hn' & Ha' & Hd').
    + by rewrite Hnodes.
    + by rewrite Hann, lookup_insert_eq.
    + exists h', nd, fa, im.
      rewrite Hrun, Hn', Hnodes, Ha', Hd'. rewrite lookup_insert_eq. simpl.
      split_and!; try done.
      * intros d ->. destruct init_input_qspec_map as [m0|]; [|done].
        destruct Hdicts as [_ ->]. rewrite lookup_insert_eq. eauto.
      * intros l Hl Hdom. rewrite lookup_insert_ne by done. by apply Hkeepa.
      * destruct im as [dn|], init_input_qspec_map as [m0|]; try done.
        destruct Hdicts as [Hdn ->]. split; [done|].
        exists m0. by rewrite lookup_insert_eq.
Qed.

(** *** Reading back after a write *)

Lemma annotation_of_annotated h n nd a :
  nodes h !! n = Some (annotated_node nd a) → annotation_of h n = Some a.
Proof.
  intros Hn. unfold annotation_of. rewrite Hn. simpl.
  by rewrite lookup_insert_eq.
Qed.

Lemma annotatable_intro h n nd a r :
  nodes h !! n = Some nd →
  meta nd !! qa_key = Some (MAnnotation a) →
  annotations h !! a = Some r →
  (∀ d, input_qspec_map r = Some d → is_Some (dicts h !! d)) →
  annotatable h n = true.
Proof.
  intros Hn Hm Ha Hd. unfold annotatable. rewrite Hn, Hm, Ha.
  destruct (input_qspec_map r) as [d|]; [|done].
  apply bool_decide_eq_true. by apply Hd.
Qed.

End AnnotateTheory.
(** ** What a caller reads back after a call *)

Section AnnotateViews.

Context `{QuantizationAnnotationInit}.

Lemma entries_before_of_map h n m :
  input_qspec_map_of h n = Some m → entries_before h n = m.
Proof.
  unfold input_qspec_map_of, entries_before, get_input_qspec_map.
  destruct (annotation_of h n) as [a|]; [|done]. simpl.
  destruct (annotations h !! a) as [r|]; [|done]. simpl.
  destruct (input_qspec_map r) as [d|]; [|done]. simpl.
  by intros ->.
Qed.

Lemma output_before_of h n o :
  output_qspec_of h n = Some o → output_before h n = o.
Proof. unfold output_before. by intros ->. Qed.

(** An annotatable node either has no annotation, or has one whose record
    and dictionary are in the heap. *)
Lemma annotatable_cases h n :
  annotatable h n = true →
  ∃ nd, nodes h !! n = Some nd ∧
    ((meta nd !! qa_key = None ∧ annotation_of h n = None) ∨
     (∃ a r, meta nd !! qa_key = Some (MAnnotation a) ∧
             annotation_of h n = Some a ∧
             annotations h !! a = Some r ∧
             ∀ d, input_qspec_map r = Some d → d ∈ dom (dicts h))).
Proof.
  unfold annotatable, annotation_of. intros Hok.
  destruct (nodes h !! n) as [nd|]; [|done]. exists nd. split; [done|]. simpl.
  destruct (meta nd !! qa_key) as [[a|?]|]; [|done|by left].
  destruct (annotations h !! a) as [r|] eqn:Hr; [|done].
  right. exists a, r. split_and!; try done.
  intros d Hd. rewrite Hd in Hok.
  by apply bool_decide_eq_true, elem_of_dom in Hok.
Qed.

Lemma annotate_input_view h n i q :
  annotatable h n = true →
  ∃ h',
    _annotate_input_qspec_map n i q h = Some h' ∧
    annotatable h' n = true ∧
    input_qspec_map_of h' n = Some (<[i := q]> (entries_before h n)) ∧
    output_qspec_of h' n = Some (output_before h n).
Proof.
  intros Hok.
  destruct (annotate_input_effect h n i q Hok)
    as (h' & nd & a & d & Hrun & Hn & Hn' & Ha' & Hd' & _).
  assert (nodes h' !! n = Some (annotated_node nd a)) as Hnn
    by (by rewrite Hn', lookup_insert_eq).
  exists h'. split_and!; [done | | |].
  - eapply annotatable_intro; [done | apply lookup_insert_eq | done |].
    simpl. intros ? [= <-]. eauto.
  - unfold input_qspec_map_of, get_input_qspec_map.
    rewrite (annotation_of_annotated _ _ _ _ Hnn). simpl. by rewrite Ha'.
  - unfold output_qspec_of, get_output_qspec.
    rewrite (annotation_of_annotated _ _ _ _ Hnn). simpl. by rewrite Ha'.
Qed.

Lemma annotate_output_view h n q :
  annotatable h n = true →
  ∃ h',
    _annotate_output_qspec n q h = Some h' ∧
    annotatable h' n = true ∧
    output_qspec_of h' n = Some q ∧
    entries_before h' n = entries_before h n ∧
    (∀ a, annotation_of h n = Some a →
          annotation_of h' n = Some a ∧
          get_input_qspec_map a h' = get_input_qspec_map a h ∧
          input_qspec_map_of h' n = input_qspec_map_of h n).
Proof.
  intros Hok.
  destruct (annotate_output_effect h n q Hok)
    as (h' & nd & a & im & Hrun & Hn & Hn' & Ha' & Him & Hfa & Hfd & Hcase).
  assert (nodes h' !! n = Some (annotated_node nd a)) as Hnn
    by (by rewrite Hn', lookup_insert_eq).
  pose proof (annotation_of_annotated _ _ _ _ Hnn) as Hao.
  exists h'. split_and!; [done | | | |].
  - eapply annotatable_intro; [done | apply lookup_insert_eq | done | done].
  - unfold output_qspec_of, get_output_qspec. rewrite Hao. simpl. by rewrite Ha'.
  - unfold entries_before at 1. rewrite Hao, Ha'. simpl.
    destruct (annotatable_cases h n Hok) as (nd0 & Hn0 & [[_ Hno]|Hyes]).
    + unfold entries_before. rewrite Hno in Hcase |- *.
      destruct Hcase as [_ Hcase]. destruct im as [d|].
      * destruct Hcase as (_ & m0 & -> & Hd). simpl. by rewrite Hd.
      * by rewrite Hcase.
    + destruct Hyes as (a0 & r & _ & Ha0 & Hr & Hdom).
      unfold entries_before. rewrite Ha0 in Hcase |- *. rewrite Hr.
      destruct Hcase as [-> Hcase]. rewrite (Hcase r Hr).
      destruct (input_qspec_map r) as [d|] eqn:Hd; [|done]. simpl.
      by rewrite Hfd by (by apply Hdom).
  - intros a0 Ha0. rewrite Ha0 in Hcase. destruct Hcase as [-> Hcase].
    destruct (annotatable_cases h n Hok) as (nd0 & Hn0 & [[_ Hno]|Hyes]);
      [congruence|].
    destruct Hyes as (a1 & r & _ & Ha1 & Hr & Hdom).
    assert (a1 = a0) as -> by congruence.
    assert (get_input_qspec_map a0 h' = get_input_qspec_map a0 h) as Hget.
    { unfold get_input_qspec_map. rewrite Ha', Hr. simpl.
      by rewrite (Hcase r Hr). }
    split_and!; [done | done |].
    unfold input_qspec_map_of. rewrite Hao, Ha0. simpl. rewrite Hget.
    unfold get_input_qspec_map. rewrite Hr. simpl.
    destruct (input_qspec_map r) as [d|] eqn:Hd; [|done]. simpl.
    by rewrite Hfd by (by apply Hdom).
Qed.

(** The dictionary that holds the entry after the call is the one the
    annotation already had, or one that was not in the heap. *)
Lemma annotate_input_dict_origin h n i q :
  annotatable h n = true →
  ∃ h' a d,
    _annotate_input_qspec_map n i q h = Some h' ∧
    annotation_of h' n = Some a ∧
    annotations h' !! a = Some (mkQA (Some d) (output_before h n)) ∧
    (d ∈ dom (dicts h) →
       ∃ r, annotation_of h n = Some a ∧
            annotations h !! a = Some r ∧
            input_qspec_map r = Some d).
Proof.
  intros Hok.
  destruct (annotate_input_effect h n i q Hok)
    as (h' & nd & a & d & Hrun & Hn & Hn' & Ha' & _ & _ & _ & Hcase).
  exists h', a, d. split_and!; [done | | done |].
  { eapply annotation_of_annotated. by rewrite Hn', lookup_insert_eq. }
  intros Hold.
  destruct (annotation_of h n) as [a0|] eqn:Hao; [|by destruct Hcase].
  destruct Hcase as [-> Hsame].
  destruct (annotatable_cases h n Hok) as (nd0 & Hn0 & [[_ Hno]|Hyes]);
    [congruence|].
  destruct Hyes as (a1 & r & Hmeta & Ha1 & Hr & Hdom).
  assert (a1 = a0) as -> by congruence.
  exists r. split_and!; [done | done |].
  destruct (input_qspec_map r) as [d0|] eqn:Hd0.
  { by rewrite (Hsame r d0 Hr Hd0). }
  exfalso.
  (* the field was [None]: the dictionary comes from [alloc_dict] *)
  rewrite _annotate_input_qspec_map_unfold in Hrun.
  destruct (new_QuantizationAnnotation h) as [fa h1] eqn:Hnew.
  destruct (new_QuantizationAnnotation_effect _ _ _ Hnew)
    as (Hnodes & Hfa & im & Hann & Hdicts).
  assert (nd0 = nd) as -> by congruence.
  unfold meta_get in Hrun. rewrite Hnodes, Hn in Hrun. simpl in Hrun.
  rewrite Hmeta in Hrun. simpl in Hrun.
  assert (a0 ≠ fa) as Hne.
  { intros ->. apply Hfa, elem_of_dom. eauto. }
  destruct (input_tail_effect h1 a0 r n nd i q)
    as (h2 & d2 & Hrun2 & _ & Ha2 & _ & Hwhich).
  - by rewrite Hnodes.
  - by rewrite Hann, lookup_insert_ne.
  - intros d1 Hd1. congruence.
  - assert (h2 = h') as -> by congruence.
    rewrite Ha2, lookup_insert_eq in Ha'. injection Ha' as -> _.
    rewrite Hd0 in Hwhich. apply Hwhich.
    destruct im as [dn|], init_input_qspec_map as [m0|]; try done.
    + destruct Hdicts as [_ ->]. set_solver.
    + by rewrite Hdicts.
Qed.

End AnnotateViews.
(** ** The claims about the annotation helpers *)

Section AnnotateClaims.

Context `{QuantizationAnnotationInit}.

Lemma filter_key_absent (l : list (positive * QSpec)) i :
  (∀ kv, kv ∈ l → kv.1 ≠ i) →
  filter (λ kv : positive * QSpec, kv.1 = i) l = [].
Proof.
  induction l as [|kv l IH]; intros Hl; [done|].
  rewrite filter_cons_False by (apply Hl; left).
  apply IH. intros kv' Hkv'. apply Hl. by right.
Qed.

(** A dictionary holds one entry per key. *)
Lemma entries_for_key (m : gmap positive QSpec) i q :
  m !! i = Some q →
  filter (λ kv : positive * QSpec, kv.1 = i) (map_to_list m) = [(i, q)].
Proof.
  intros Hi. apply Permutation_singleton_r.
  rewrite <- (map_to_list_delete m i q Hi).
  rewrite filter_cons_True by done.
  rewrite filter_key_absent; [done|].
  intros [k v] Hin Hk. simpl in Hk. subst k.
  apply elem_of_map_to_list in Hin. by rewrite lookup_delete_eq in Hin.
Qed.

(** C2: two calls of [_annotate_input_qspec_map] on the same node with
    distinct input nodes [i1] and [i2] leave both entries in the node's
    [input_qspec_map]: [i1] mapped to [q1] and [i2] mapped to [q2]. *)
Theorem annotate_input_twice_accumulates h n i1 i2 q1 q2 :
  annotatable h n = true →
  i1 ≠ i2 →
  ∃ h1 h2 m,
    _annotate_input_qspec_map n i1 q1 h = Some h1 ∧
    _annotate_input_qspec_map n i2 q2 h1 = Some h2 ∧
    input_qspec_map_of h2 n = Some m ∧
    m !! i1 = Some q1 ∧
    m !! i2 = Some q2.
Proof.
  intros Hok Hne.
  destruct (annotate_input_view h n i1 q1 Hok) as (h1 & Hrun1 & Hok1 & Hm1 & _).
  destruct (annotate_input_view h1 n i2 q2 Hok1) as (h2 & Hrun2 & _ & Hm2 & _).
  rewrite (entries_before_of_map _ _ _ Hm1) in Hm2.
  exists h1, h2, (<[i2 := q2]> (<[i1 := q1]> (entries_before h n))).
  split_and!; [done | done | done | | apply lookup_insert_eq].
  rewrite lookup_insert_ne by done. apply lookup_insert_eq.
Qed.

(** C3: two calls of [_annotate_output_qspec] on the same node leave
    [output_qspec] equal to the second spec, whatever the node held
    before. *)
Theorem annotate_output_twice_overwrites h n q1 q2 :
  annotatable h n = true →
  ∃ h1 h2,
    _annotate_output_qspec n q1 h = Some h1 ∧
    _annotate_output_qspec n q2 h1 = Some h2 ∧
    output_qspec_of h2 n = Some q2.
Proof.
  intros Hok.
  destruct (annotate_output_view h n q1 Hok) as (h1 & Hrun1 & Hok1 & _).
  destruct (annotate_output_view h1 n q2 Hok1) as (h2 & Hrun2 & _ & Hq & _).
  by exists h1, h2.
Qed.

(** C10: two calls of [_annotate_input_qspec_map] on the same node with the
    same input node [i] leave one entry for [i], mapped to the second spec;
    the second call adds no entry and changes no other key. *)
Theorem annotate_input_same_key_last_wins h n i q1 q2 :
  annotatable h n = true →
  ∃ h1 h2 m1 m2,
    _annotate_input_qspec_map n i q1 h = Some h1 ∧
    _annotate_input_qspec_map n i q2 h1 = Some h2 ∧
    input_qspec_map_of h1 n = Some m1 ∧
    input_qspec_map_of h2 n = Some m2 ∧
    m2 !! i = Some q2 ∧
    filter (λ kv : positive * QSpec, kv.1 = i) (map_to_list m2) = [(i, q2)] ∧
    size m2 = size m1 ∧
    ∀ j, j ≠ i → m2 !! j = m1 !! j.
Proof.
  intros Hok.
  destruct (annotate_input_view h n i q1 Hok) as (h1 & Hrun1 & Hok1 & Hm1 & _).
  destruct (annotate_input_view h1 n i q2 Hok1) as (h2 & Hrun2 & _ & Hm2 & _).
  rewrite (entries_before_of_map _ _ _ Hm1) in Hm2.
  eexists h1, h2, _, _. split_and!; [done | done | done | done | | | |].
  - apply lookup_insert_eq.
  - apply entries_for_key, lookup_insert_eq.
  - apply map_size_insert_Some. rewrite lookup_insert_eq. eauto.
  - intros j Hj. by rewrite lookup_insert_ne.
Qed.

Lemma annotatable_unannotated h n nd :
  nodes h !! n = Some nd → meta nd !! qa_key = None →
  annotatable h n = true ∧ annotation_of h n = None.
Proof.
  intros Hn Hm. unfold annotatable, annotation_of. rewrite Hn. simpl.
  by rewrite Hm.
Qed.

(** C6: on a node with no ["quantization_annotation"] entry, either helper
    builds a new annotation object, sets its one field and leaves the other
    as the constructor made it, and stores the object under the key. *)
Theorem annotate_creates_annotation h n nd i q :
  nodes h !! n = Some nd →
  meta nd !! qa_key = None →
  (∃ h' a d,
      _annotate_input_qspec_map n i q h = Some h' ∧
      (a ∉ dom (annotations h)) ∧
      nodes h' !! n = Some (annotated_node nd a) ∧
      annotations h' !! a = Some (mkQA (Some d) init_output_qspec) ∧
      dicts h' !! d = Some (<[i := q]> (default ∅ init_input_qspec_map))) ∧
  (∃ h' a im,
      _annotate_output_qspec n q h = Some h' ∧
      (a ∉ dom (annotations h)) ∧
      nodes h' !! n = Some (annotated_node nd a) ∧
      annotations h' !! a = Some (mkQA im q) ∧
      entries_at h' im = default ∅ init_input_qspec_map ∧
      (im = None ↔ init_input_qspec_map = None)).
Proof.
  intros Hn Hm.
  destruct (annotatable_unannotated h n nd Hn Hm) as [Hok Hno].
  split.
  - destruct (annotate_input_effect h n i q Hok)
      as (h' & nd0 & a & d & Hrun & Hn0 & Hn' & Ha' & Hd' & _ & _ & Hcase).
    assert (nd0 = nd) as -> by congruence.
    rewrite Hno in Hcase. destruct Hcase as [Hfresh _].
    exists h', a, d. split_and!; [done | done | | |].
    + by rewrite Hn', lookup_insert_eq.
    + rewrite Ha'. unfold output_before, output_qspec_of. by rewrite Hno.
    + rewrite Hd'. unfold entries_before. by rewrite Hno.
  - destruct (annotate_output_effect h n q Hok)
      as (h' & nd0 & a & im & Hrun & Hn0 & Hn' & Ha' & _ & _ & _ & Hcase).
    assert (nd0 = nd) as -> by congruence.
    rewrite Hno in Hcase. destruct Hcase as [Hfresh Him].
    exists h', a, im. split_and!; [done | done | | done | |].
    + by rewrite Hn', lookup_insert_eq.
    + destruct im as [d|].
      * destruct Him as (_ & m0 & -> & Hd). simpl. by rewrite Hd.
      * by rewrite Him.
    + destruct im as [d|]; [|done].
      destruct Him as (_ & m0 & -> & _). done.
Qed.

Lemma annotate_input_only_touches h n i q h' :
  annotatable h n = true →
  _annotate_input_qspec_map n i q h = Some h' →
  only_touches n h h'.
Proof.
  intros Hok Hrun.
  destruct (annotate_input_effect h n i q Hok)
    as (h1 & nd & a & d & Hrun1 & Hn & Hn' & Ha' & Hd' & Hfa & Hfd & _).
  assert (h1 = h') as -> by congruence.
  assert (nodes h' !! n = Some (annotated_node nd a)) as Hnn
    by (by rewrite Hn', lookup_insert_eq).
  pose proof (annotation_of_annotated _ _ _ _ Hnn) as Hao.
  split_and!.
  - intros m Hm. by rewrite Hn', lookup_insert_ne.
  - exists nd, (annotated_node nd a). split_and!; try done.
    intros k Hk. simpl. by rewrite lookup_insert_ne.
  - intros l Hl Hne. apply Hfa; [|done]. intros ->. by rewrite Hao in Hne.
  - intros l Hl Hne. apply Hfd; [|done]. intros ->. apply Hne.
    rewrite Hao. simpl. unfold get_input_qspec_map. by rewrite Ha'.
Qed.

Lemma annotate_output_only_touches h n q h' :
  annotatable h n = true →
  _annotate_output_qspec n q h = Some h' →
  only_touches n h h' ∧ ∀ l, l ∈ dom (dicts h) → dicts h' !! l = dicts h !! l.
Proof.
  intros Hok Hrun.
  destruct (annotate_output_effect h n q Hok)
    as (h1 & nd & a & im & Hrun1 & Hn & Hn' & Ha' & _ & Hfa & Hfd & _).
  assert (h1 = h') as -> by congruence.
  assert (nodes h' !! n = Some (annotated_node nd a)) as Hnn
    by (by rewrite Hn', lookup_insert_eq).
  pose proof (annotation_of_annotated _ _ _ _ Hnn) as Hao.
  split; [|done]. split_and!.
  - intros m Hm. by rewrite Hn', lookup_insert_ne.
  - exists nd, (annotated_node nd a). split_and!; try done.
    intros k Hk. simpl. by rewrite lookup_insert_ne.
  - intros l Hl Hne. apply Hfa; [|done]. intros ->. by rewrite Hao in Hne.
  - intros l Hl _. by apply Hfd.
Qed.

(** Each helper writes only objects that the node held before the call;
    what else is in the heap afterwards is new. *)
Lemma annotate_input_changes_only h n i q h' :
  annotatable h n = true →
  _annotate_input_qspec_map n i q h = Some h' →
  changes_only_objects_of n h h'.
Proof.
  intros Hok Hrun.
  destruct (annotate_input_effect h n i q Hok)
    as (h1 & nd & a & d & Hrun1 & Hn & Hn' & Ha' & _ & Hfa & Hfd & Hcase).
  assert (h1 = h') as -> by congruence.
  destruct (annotate_input_dict_origin h n i q Hok)
    as (h2 & a2 & d2 & Hrun2 & Ha2 & Hrec2 & Horigin).
  assert (h2 = h') as -> by congruence.
  assert (annotation_of h' n = Some a) as Hao'
    by (eapply annotation_of_annotated; by rewrite Hn', lookup_insert_eq).
  assert (a2 = a) as -> by congruence.
  assert (d2 = d) as -> by congruence.
  split_and!.
  - intros m Hm. by rewrite Hn', lookup_insert_ne.
  - exists nd, (annotated_node nd a). split_and!; try done.
    + by rewrite Hn', lookup_insert_eq.
    + intros k Hk. simpl. by rewrite lookup_insert_ne.
  - intros l Hl Hne. apply Hfa; [|done]. intros ->.
    destruct (annotation_of h n) as [a0|].
    + destruct Hcase as [-> _]. done.
    + destruct Hcase as [Hfresh _]. done.
  - intros l Hl Hne. apply Hfd; [|done]. intros ->.
    destruct (Horigin Hl) as (r & Hao & Hr & Hfield). apply Hne.
    rewrite Hao. simpl. unfold get_input_qspec_map. rewrite Hr. simpl.
    by rewrite Hfield.
Qed.

Lemma annotate_output_changes_only h n q h' :
  annotatable h n = true →
  _annotate_output_qspec n q h = Some h' →
  changes_only_objects_of n h h'.
Proof.
  intros Hok Hrun.
  destruct (annotate_output_effect h n q Hok)
    as (h1 & nd & a & im & Hrun1 & Hn & Hn' & _ & _ & Hfa & Hfd & Hcase).
  assert (h1 = h') as -> by congruence.
  split_and!.
  - intros m Hm. by rewrite Hn', lookup_insert_ne.
  - exists nd, (annotated_node nd a). split_and!; try done.
    + by rewrite Hn', lookup_insert_eq.
    + intros k Hk. simpl. by rewrite lookup_insert_ne.
  - intros l Hl Hne. apply Hfa; [|done]. intros ->.
    destruct (annotation_of h n) as [a0|].
    + destruct Hcase as [-> _]. done.
    + destruct Hcase as [Hfresh _]. done.
  - intros l Hl _. by apply Hfd.
Qed.

(** A step that changes only objects of [n] is not seen through a node
    that shares no object with [n]. *)
Lemma changes_only_objects_of_reads n m h h' :
  changes_only_objects_of n h h' →
  m ≠ n →
  annotatable h m = true →
  unshared h n m →
  output_qspec_of h' m = output_qspec_of h m ∧
  input_qspec_map_of h' m = input_qspec_map_of h m.
Proof.
  intros (Hnodes & _ & Hfa & Hfd) Hne Hokm Hun.
  assert (annotation_of h' m = annotation_of h m) as Hsame
    by (unfold annotation_of; by rewrite (Hnodes m Hne)).
  unfold output_qspec_of, input_qspec_map_of. rewrite Hsame.
  destruct (annotatable_cases h m Hokm) as (ndm & Hnm & [[_ Hno]|Hyes]).
  { by rewrite Hno. }
  destruct Hyes as (b & rb & _ & Hb & Hrb & Hdb).
  rewrite Hb. simpl. unfold get_output_qspec, get_input_qspec_map.
  assert (annotations h' !! b = Some rb) as ->.
  { rewrite Hfa; [done | apply elem_of_dom; eauto |].
    intros Hnb. destruct (Hun b b Hnb Hb) as [Hx _]. done. }
  rewrite Hrb. simpl. split; [done|].
  destruct (input_qspec_map rb) as [db|] eqn:Hfield; [|done]. simpl.
  apply Hfd; [by apply Hdb|].
  destruct (annotation_of h n) as [a|] eqn:Hao; [|done]. simpl.
  intros Hshared. destruct (Hun a b Hao Hb) as [_ Hdict].
  apply (Hdict db Hshared). unfold get_input_qspec_map.
  by rewrite Hrb; simpl; rewrite Hfield.
Qed.

(** C9: [_annotate_input_qspec_map] leaves the node's [output_qspec] as it
    was, and [_annotate_output_qspec] leaves the node's [input_qspec_map]
    and its entries as they were.  Each writes only the node's [meta] entry
    under the annotation key, the annotation object that the node referred
    to before the call and, for the input helper, the dictionary of that
    annotation; every other node, annotation and dictionary that existed
    is as it was.  So a node that shares neither its annotation object nor
    its dictionary with the node reads the same annotation fields
    afterwards. *)
Theorem annotate_frame h n i q :
  annotatable h n = true →
  (∃ h',
      _annotate_input_qspec_map n i q h = Some h' ∧
      (∀ o, output_qspec_of h n = Some o → output_qspec_of h' n = Some o) ∧
      (annotation_of h n = None →
         output_qspec_of h' n = Some init_output_qspec) ∧
      changes_only_objects_of n h h' ∧
      (∀ m, m ≠ n → annotatable h m = true → unshared h n m →
            output_qspec_of h' m = output_qspec_of h m ∧
            input_qspec_map_of h' m = input_qspec_map_of h m)) ∧
  (∃ h',
      _annotate_output_qspec n q h = Some h' ∧
      (∀ a, annotation_of h n = Some a →
            annotation_of h' n = Some a ∧
            get_input_qspec_map a h' = get_input_qspec_map a h ∧
            input_qspec_map_of h' n = input_qspec_map_of h n) ∧
      entries_before h' n = entries_before h n ∧
      (∀ l, l ∈ dom (dicts h) → dicts h' !! l = dicts h !! l) ∧
      changes_only_objects_of n h h' ∧
      (∀ m, m ≠ n → annotatable h m = true → unshared h n m →
            output_qspec_of h' m = output_qspec_of h m ∧
            input_qspec_map_of h' m = input_qspec_map_of h m)).
Proof.
  intros Hok. split.
  - destruct (annotate_input_view h n i q Hok) as (h' & Hrun & _ & _ & Ho).
    pose proof (annotate_input_changes_only h n i q h' Hok Hrun) as Hframe.
    exists h'. split_and!; [done | | | done |].
    + intros o Hbefore. by rewrite Ho, (output_before_of _ _ _ Hbefore).
    + intros Hno. rewrite Ho. unfold output_before, output_qspec_of.
      by rewrite Hno.
    + intros m Hm Hokm Hun. by eapply changes_only_objects_of_reads.
  - destruct (annotate_output_view h n q Hok)
      as (h' & Hrun & _ & _ & Hentries & Hsame).
    destruct (annotate_output_only_touches h n q h' Hok Hrun) as [_ Hd].
    pose proof (annotate_output_changes_only h n q h' Hok Hrun) as Hframe.
    exists h'. split_and!; [done | done | done | done | done |].
    intros m Hm Hokm Hun. by eapply changes_only_objects_of_reads.
Qed.

End AnnotateClaims.
(** ** The helpers on concrete heaps *)

Local Open Scope positive_scope.

Lemma annotate_input_twice_accumulates_witness :
  annotatable heap0 1 = true ∧ 2 ≠ 3 ∧
  ∃ h1 h2 m,
    _annotate_input_qspec_map (H := init_empty_dict) 1 2 (QObj 5) heap0
      = Some h1 ∧
    _annotate_input_qspec_map (H := init_empty_dict) 1 3 (QObj 6) h1
      = Some h2 ∧
    input_qspec_map_of h2 1 = Some m ∧
    m !! 2 = Some (QObj 5) ∧
    m !! 3 = Some (QObj 6).
Proof.
  split; [reflexivity|]. split; [discriminate|].
  apply (@annotate_input_twice_accumulates init_empty_dict heap0 1 2 3);
    [reflexivity | discriminate].
Defined.

Lemma annotate_output_twice_overwrites_witness :
  annotatable heap_shared 1 = true ∧
  ∃ h1 h2,
    _annotate_output_qspec (H := init_none) 1 (QObj 5) heap_shared = Some h1 ∧
    _annotate_output_qspec (H := init_none) 1 (QObj 6) h1 = Some h2 ∧
    output_qspec_of h2 1 = Some (QObj 6).
Proof.
  split; [reflexivity|].
  apply (@annotate_output_twice_overwrites init_none heap_shared 1);
    reflexivity.
Defined.

Lemma annotate_input_same_key_last_wins_witness :
  annotatable heap0 1 = true ∧
  ∃ h1 h2 m1 m2,
    _annotate_input_qspec_map (H := init_none) 1 2 (QObj 5) heap0 = Some h1 ∧
    _annotate_input_qspec_map (H := init_none) 1 2 (QObj 6) h1 = Some h2 ∧
    input_qspec_map_of h1 1 = Some m1 ∧
    input_qspec_map_of h2 1 = Some m2 ∧
    m2 !! 2 = Some (QObj 6) ∧
    filter (λ kv : positive * QSpec, kv.1 = 2) (map_to_list m2)
      = [(2, QObj 6)] ∧
    size m2 = size m1 ∧
    ∀ j, j ≠ 2 → m2 !! j = m1 !! j.
Proof.
  split; [reflexivity|].
  apply (@annotate_input_same_key_last_wins init_none heap0 1 2); reflexivity.
Defined.

Lemma annotate_creates_annotation_witness :
  nodes heap0 !! 2 = Some (mkNode [] (<["val" := MOther 7]> ∅)) ∧
  meta (mkNode [] (<["val" := MOther 7]> ∅)) !! qa_key = None ∧
  ∃ h' a d,
    _annotate_input_qspec_map (H := init_empty_dict) 2 1 (QObj 5) heap0
      = Some h' ∧
    (a ∉ dom (annotations heap0)) ∧
    nodes h' !! 2
      = Some (annotated_node (mkNode [] (<["val" := MOther 7]> ∅)) a) ∧
    annotations h' !! a = Some (mkQA (Some d) QNone) ∧
    dicts h' !! d = Some (<[1 := QObj 5]> ∅).
Proof.
  split; [reflexivity|]. split; [reflexivity|].
  apply (@annotate_creates_annotation init_empty_dict heap0 2
           (mkNode [] (<["val" := MOther 7]> ∅)) 1 (QObj 5));
    reflexivity.
Defined.

Lemma annotate_frame_witness :
  annotatable heap_two 1 = true ∧
  ∃ h',
    _annotate_input_qspec_map (H := init_empty_dict) 1 3 (QObj 5) heap_two
      = Some h' ∧
    (∀ o, output_qspec_of heap_two 1 = Some o →
          output_qspec_of h' 1 = Some o) ∧
    (annotation_of heap_two 1 = None → output_qspec_of h' 1 = Some QNone) ∧
    changes_only_objects_of 1 heap_two h' ∧
    (∀ m, m ≠ 1 → annotatable heap_two m = true → unshared heap_two 1 m →
          output_qspec_of h' m = output_qspec_of heap_two m ∧
          input_qspec_map_of h' m = input_qspec_map_of heap_two m).
Proof.
  split; [reflexivity|].
  apply (@annotate_frame init_empty_dict heap_two 1 3 (QObj 5)).
  reflexivity.
Defined.

(** The frame does not extend to a node that shares its annotation object
    with the annotated node: after [_annotate_output_qspec] on node 1 of
    [heap_shared], node 2 reads another [output_qspec]. *)
Lemma annotate_frame_counterexample :
  ¬ (∀ h',
       _annotate_output_qspec (H := init_none) 1 (QObj 5) heap_shared
         = Some h' →
       ∀ m, m ≠ 1 →
         output_qspec_of h' m = output_qspec_of heap_shared m ∧
         input_qspec_map_of h' m = input_qspec_map_of heap_shared m).
Proof.
  intros Hclaim.
  destruct (Hclaim _ eq_refl 2) as [Ho _]; [discriminate|].
  vm_compute in Ho. discriminate Ho.
Qed.

(** Two nodes that share one annotation object: writing through node 1 is
    seen through node 2, whose own [meta] is untouched. *)
Example annotate_shared_annotation :
  output_qspec_of heap_shared 2 = Some (QObj 9) ∧
  ∃ h',
    _annotate_output_qspec (H := init_none) 1 (QObj 5) heap_shared = Some h' ∧
    nodes h' !! 2 = nodes heap_shared !! 2 ∧
    output_qspec_of h' 2 = Some (QObj 5).
Proof.
  split; [reflexivity|]. eexists. split; [reflexivity|].
  split; reflexivity.
Qed.
(** ** Nodes used only to read a size *)

Section SymSizeTheory.

Context `{Pt2eUtils}.

Lemma users_check_spec (partition_nodes l : list positive) :
  forallb
    (λ user, negb (bool_decide (user ∈ partition_nodes))
             || _is_sym_size_node user) l = true ↔
  ∀ user, user ∈ l →
    user ∉ partition_nodes ∨ _is_sym_size_node user = true.
Proof.
  induction l as [|u l IH]; simpl.
  - split; [|done]. intros _ user Hin. by apply elem_of_nil in Hin.
  - rewrite andb_true_iff, IH, orb_true_iff, negb_true_iff,
      bool_decide_eq_false.
    split.
    + intros [Hu Hl] user [->|Hin]%elem_of_cons; [done|]. by apply Hl.
    + intros Hall. split; [apply Hall; left|].
      intros user Hin. apply Hall. by right.
Qed.

(** C1, as the code has it: the result is true exactly when the node is
    itself a sym-size node, or every user of the node is outside the
    partition or is a sym-size node. *)
Theorem node_only_used_for_sym_size_spec h node nd partition_nodes :
  nodes h !! node = Some nd →
  ∃ b,
    _node_only_used_for_sym_size node partition_nodes h = Some b ∧
    (b = true ↔
       _is_sym_size_node node = true ∨
       ∀ user, user ∈ users nd →
         user ∉ partition_nodes ∨ _is_sym_size_node user = true).
Proof.
  intros Hn. unfold _node_only_used_for_sym_size.
  destruct (_is_sym_size_node node) eqn:Hsym.
  - exists true. split; [done|]. split; [by left|done].
  - rewrite Hn. simpl. eexists. split; [done|].
    rewrite users_check_spec. split; [by right|].
    by intros [?|?].
Qed.

End SymSizeTheory.

(** C1, as stated, fails on a sym-size node that has a user inside the
    partition which is not a sym-size node: node 1 of [heap0], whose one
    user is node 2, with the partition [[2]].  The call returns [True]
    although user 2 is in the partition and is not a sym-size node. *)
Lemma node_only_used_for_sym_size_counterexample :
  ¬ (∀ nd, nodes heap0 !! 1%positive = Some nd →
       (_node_only_used_for_sym_size (H := only_node_1_is_sym_size)
          1 [2%positive] heap0 = Some true ↔
        ∀ user, user ∈ users nd →
          user ∉ [2%positive] ∨
          _is_sym_size_node (Pt2eUtils := only_node_1_is_sym_size) user
            = true)).
Proof.
  intros Hclaim.
  destruct (Hclaim (mkNode [2%positive] ∅) eq_refl) as [Hto _].
  destruct (Hto eq_refl 2%positive) as [Hout|Hsym].
  - left.
  - apply Hout. left.
  - discriminate Hsym.
Qed.

(** With no sym-size node at all, node 1 of [heap0] is used only for sizes
    with respect to a partition that leaves its user out, and not with
    respect to one that holds it. *)
Example node_only_used_for_sym_size_runs :
  _node_only_used_for_sym_size (H := no_sym_size_node) 1 [3%positive] heap0
    = Some true ∧
  _node_only_used_for_sym_size (H := no_sym_size_node) 1 [2%positive] heap0
    = Some false ∧
  _node_only_used_for_sym_size (H := only_node_1_is_sym_size)
    1 [2%positive] heap0 = Some true.
Proof. split_and!; reflexivity. Qed.

Lemma node_only_used_for_sym_size_spec_witness :
  nodes heap0 !! 1%positive = Some (mkNode [2%positive] ∅) ∧
  ∃ b,
    _node_only_used_for_sym_size (H := no_sym_size_node)
      1 [2%positive] heap0 = Some b ∧
    (b = true ↔
       _is_sym_size_node (Pt2eUtils := no_sym_size_node) 1%positive = true ∨
       ∀ user, user ∈ users (mkNode [2%positive] ∅) →
         user ∉ [2%positive] ∨
         _is_sym_size_node (Pt2eUtils := no_sym_size_node) user = true).
Proof.
  split; [reflexivity|].
  apply (@node_only_used_for_sym_size_spec no_sym_size_node heap0 1
           (mkNode [2%positive] ∅) [2%positive]).
  reflexivity.
Defined.
(** ** The conv / batch-norm / unary template *)

Section PatternTheory.

Context `{TorchFunctional}.

(** C7: the template applies [conv_fn] to [(x, conv_weight, conv_bias)],
    applies batch norm to the result exactly when [has_bn] holds, applies
    [unary_fn] to that exactly when it is not [None], and returns the last
    value with a name map whose keys are ["input"], ["conv"],
    ["conv_weight"], ["conv_bias"], ["bn"], ["unary"] and ["output"]. *)
Theorem conv_unary_pattern_spec
    conv_fn (has_bn : bool) unary_fn
    (x conv_weight conv_bias : Val) bn_weight bn_bias bn_rm bn_rv
    (conv bn out : Val) :
  conv_fn x conv_weight conv_bias = Ok conv →
  (if has_bn
   then batch_norm conv bn_rm bn_rv bn_weight bn_bias true = Ok bn
   else bn = conv) →
  match unary_fn with
  | Some f => f bn = Ok out
  | None => out = bn
  end →
  ∃ name_map,
    _get_conv_unary_pattern conv_fn has_bn unary_fn
      x conv_weight conv_bias bn_weight bn_bias bn_rm bn_rv
      = Ok (out, name_map) ∧
    name_map =
      [("input", x); ("conv", conv); ("conv_weight", conv_weight);
       ("conv_bias", conv_bias); ("bn", bn); ("unary", out);
       ("output", out)] ∧
    name_map.*1 = name_map_keys.
Proof.
  intros Hconv Hbn Hunary. eexists. split; [|split; [reflexivity|done]].
  unfold _get_conv_unary_pattern. rewrite Hconv. simpl.
  destruct has_bn.
  - rewrite Hbn. simpl.
    destruct unary_fn as [f|]; [by rewrite Hunary | by subst].
  - subst bn. simpl.
    destruct unary_fn as [f|]; [by rewrite Hunary | by subst].
Qed.

(** The template raises exactly what one of its three calls raises. *)
Lemma conv_unary_pattern_raises
    conv_fn (has_bn : bool) unary_fn
    (x conv_weight conv_bias : Val) bn_weight bn_bias bn_rm bn_rv (e : Exn) :
  _get_conv_unary_pattern conv_fn has_bn unary_fn
    x conv_weight conv_bias bn_weight bn_bias bn_rm bn_rv = Raise e ↔
  conv_fn x conv_weight conv_bias = Raise e ∨
  (∃ conv,
      conv_fn x conv_weight conv_bias = Ok conv ∧
      has_bn = true ∧
      batch_norm conv bn_rm bn_rv bn_weight bn_bias true = Raise e) ∨
  (∃ conv bn f,
      conv_fn x conv_weight conv_bias = Ok conv ∧
      (if has_bn
       then batch_norm conv bn_rm bn_rv bn_weight bn_bias true = Ok bn
       else bn = conv) ∧
      unary_fn = Some f ∧
      f bn = Raise e).
Proof.
  unfold _get_conv_unary_pattern. split.
  - destruct (conv_fn x conv_weight conv_bias) as [conv|e0] eqn:Hconv; simpl;
      [|intros [= ->]; by left].
    destruct has_bn; simpl.
    + destruct (batch_norm conv bn_rm bn_rv bn_weight bn_bias true)
        as [bn|e1] eqn:Hbn; simpl;
        [|intros [= ->]; right; left; by exists conv].
      destruct unary_fn as [f|]; simpl; [|done].
      destruct (f bn) as [u|e2] eqn:Hf; simpl; [done|].
      intros [= ->]. right. right. by exists conv, bn, f.
    + destruct unary_fn as [f|]; simpl; [|done].
      destruct (f conv) as [u|e2] eqn:Hf; simpl; [done|].
      intros [= ->]. right. right. by exists conv, conv, f.
  - intros [Hc|[(conv & Hc & -> & Hb)|(conv & bn & f & Hc & Hb & -> & Hf)]].
    + by rewrite Hc.
    + rewrite Hc. simpl. by rewrite Hb.
    + rewrite Hc. simpl. destruct has_bn.
      * rewrite Hb. simpl. by rewrite Hf.
      * subst bn. simpl. by rewrite Hf.
Qed.

End PatternTheory.

Lemma conv_unary_pattern_spec_witness :
  conv2d (TorchFunctional := torch_on_Z) 2%Z 3%Z 1%Z = Ok 7%Z ∧
  batch_norm (TorchFunctional := torch_on_Z) 7%Z None None None None true
    = Ok 107%Z ∧
  relu6 (TorchFunctional := torch_on_Z) 107%Z = Ok 6%Z ∧
  ∃ name_map,
    _get_conv_unary_pattern (H := torch_on_Z) conv2d true (Some relu6)
      2%Z 3%Z 1%Z None None None None = Ok (6%Z, name_map) ∧
    name_map =
      [("input", 2%Z); ("conv", 7%Z); ("conv_weight", 3%Z);
       ("conv_bias", 1%Z); ("bn", 107%Z); ("unary", 6%Z);
       ("output", 6%Z)] ∧
    name_map.*1 = name_map_keys.
Proof.
  split; [reflexivity|]. split; [reflexivity|]. split; [reflexivity|].
  apply (@conv_unary_pattern_spec torch_on_Z conv2d true (Some relu6)
           2%Z 3%Z 1%Z None None None None 7%Z 107%Z 6%Z);
    reflexivity.
Defined.
(** ** The cached pattern matchers *)

Section MatcherTheory.

Context `{TorchFx}.

Lemma accessor_unfold f : accessor f = lru_cache f (accessor_body f).
Proof. by destruct f. Qed.

(** *** What the helper does to the process *)

(** A call into the framework touches neither the objects nor the caches. *)
Lemma call_frame {A} (f : Ext → Result Exn A * Ext) w r w' :
  call f w = (r, w') → matchers w' = matchers w ∧ caches w' = caches w.
Proof.
  unfold call. destruct (f (ext w)) as [r0 x]. by intros [= <- <-].
Qed.

Lemma SubgraphMatcherWithNameNodeMap_frame g b w r w' :
  SubgraphMatcherWithNameNodeMap g b w = (r, w') →
  caches w' = caches w ∧
  dom (matchers w) ⊆ dom (matchers w') ∧
  ∀ l, r = Ok l → (l ∉ dom (matchers w)) ∧ l ∈ dom (matchers w').
Proof.
  unfold SubgraphMatcherWithNameNodeMap.
  destruct (matcher_init g b (ext w)) as [[m|e] x]; intros [= <- <-]; simpl.
  - split; [done|]. split; [set_solver|].
    intros l [= <-]. split; [apply is_fresh | set_solver].
  - done.
Qed.

Lemma helper_frame pattern example_inputs w r w' :
  _generate_pattern_matcher_helper pattern example_inputs w = (r, w') →
  caches w' = caches w ∧
  dom (matchers w) ⊆ dom (matchers w') ∧
  ∀ l, r = Ok l → (l ∉ dom (matchers w)) ∧ l ∈ dom (matchers w').
Proof.
  unfold _generate_pattern_matcher_helper, mbind, M_bind.
  destruct (call (get_aten_graph_module pattern example_inputs) w)
    as [[g|e] w1] eqn:H1;
    destruct (call_frame _ _ _ _ H1) as [Hm1 Hc1];
    [|intros [= <- <-]; by rewrite Hm1].
  destruct (call (eliminate_dead_code g) w1) as [[[]|e] w2] eqn:H2;
    destruct (call_frame _ _ _ _ H2) as [Hm2 Hc2];
    [|intros [= <- <-]; rewrite Hm2, Hm1, Hc2; done].
  destruct (call (recompile g) w2) as [[[]|e] w3] eqn:H3;
    destruct (call_frame _ _ _ _ H3) as [Hm3 Hc3];
    [|intros [= <- <-]; rewrite Hm3, Hm2, Hm1, Hc3, Hc2; done].
  intros H4.
  destruct (SubgraphMatcherWithNameNodeMap_frame _ _ _ _ _ H4)
    as (Hc4 & Hsub & Hnew).
  rewrite Hm3, Hm2, Hm1 in Hsub, Hnew.
  rewrite Hc4, Hc3, Hc2. done.
Qed.

(** The helper raises exactly what one of its four calls raises, and
    leaves the process where that call left it. *)
Lemma helper_raises pattern example_inputs w e w' :
  _generate_pattern_matcher_helper pattern example_inputs w = (Raise e, w') ↔
  helper_call_raises pattern example_inputs w e w'.
Proof.
  unfold _generate_pattern_matcher_helper, mbind, M_bind. split.
  - destruct (call (get_aten_graph_module pattern example_inputs) w)
      as [[g|e1] w1] eqn:H1;
      [|intros [= -> ->]; by apply raises_in_get_aten_graph_module].
    destruct (call (eliminate_dead_code g) w1) as [[[]|e2] w2] eqn:H2;
      [|intros [= -> ->]; by eapply raises_in_eliminate_dead_code].
    destruct (call (recompile g) w2) as [[[]|e3] w3] eqn:H3;
      [|intros [= -> ->]; by eapply raises_in_recompile].
    intros H4. by eapply raises_in_matcher.
  - intros [H1|g w1 H1 H2|g w1 w2 H1 H2 H3|g w1 w2 w3 H1 H2 H3 H4].
    + by rewrite H1.
    + by rewrite H1, H2.
    + by rewrite H1, H2, H3.
    + by rewrite H1, H2, H3.
Qed.

(** *** The wrapper *)

Lemma lru_cache_hit f body w l :
  caches w !! f = Some l → lru_cache f body w = (Ok l, w).
Proof. unfold lru_cache. by intros ->. Qed.

Lemma lru_cache_returns f body w l w1 :
  lru_cache f body w = (Ok l, w1) → caches w1 !! f = Some l.
Proof.
  unfold lru_cache. destruct (caches w !! f) as [l0|] eqn:Hf.
  - by intros [= <- <-].
  - destruct (body w) as [[l0|e] w']; [|done].
    intros [= <- <-]. simpl. apply lookup_insert_eq.
Qed.

Lemma lru_cache_raises f body w e w' :
  lru_cache f body w = (Raise e, w') ↔
  caches w !! f = None ∧ body w = (Raise e, w').
Proof.
  unfold lru_cache. destruct (caches w !! f) as [l0|].
  - split; [done|]. by intros [? _].
  - destruct (body w) as [[l0|e0] w0].
    + split; [done|]. by intros [_ ?].
    + split; [by intros [= -> ->] | by intros [_ [= -> ->]]].
Qed.

(** *** One call, and any run *)

Lemma accessor_step f w r w1 :
  accessor f w = (r, w1) →
  (∀ g l, caches w !! g = Some l → caches w1 !! g = Some l) ∧
  dom (matchers w) ⊆ dom (matchers w1) ∧
  (caches_ok w → caches_ok w1).
Proof.
  rewrite accessor_unfold. unfold lru_cache.
  destruct (caches w !! f) as [l0|] eqn:Hf; [by intros [= <- <-]|].
  destruct (accessor_body f w) as [r0 w'] eqn:Hbody.
  destruct (helper_frame _ _ _ _ _ Hbody) as (Hc & Hsub & Hnew).
  destruct r0 as [l|e]; intros [= <- <-]; simpl.
  - destruct (Hnew l eq_refl) as [Hfresh Hin].
    assert (∀ g l', caches w !! g = Some l' → g ≠ f) as Hother
      by (intros g l' Hg ->; congruence).
    split_and!; [|done|].
    + intros g l' Hg. rewrite lookup_insert_ne by (symmetry; eauto).
      by rewrite Hc.
    + intros [Hlive Hinj]. rewrite Hc. split; simpl.
      * intros g l'. destruct (decide (f = g)) as [<-|Hne].
        -- rewrite lookup_insert_eq. by intros [= <-].
        -- rewrite lookup_insert_ne by done. intros Hg.
           apply Hsub. by eapply Hlive.
      * intros g1 g2 l'.
        destruct (decide (f = g1)) as [<-|Hne1];
          destruct (decide (f = g2)) as [<-|Hne2]; [done| | |].
        -- rewrite lookup_insert_eq, lookup_insert_ne by done.
           intros [= <-] Hg2. exfalso. apply Hfresh. by eapply Hlive.
        -- rewrite lookup_insert_eq, lookup_insert_ne by done.
           intros Hg1 [= <-]. exfalso. apply Hfresh. by eapply Hlive.
        -- rewrite !lookup_insert_ne by done. apply Hinj.
  - split_and!; [by rewrite Hc | done |].
    intros [Hlive Hinj]. split; rewrite Hc.
    + intros g l' Hg. apply Hsub. by eapply Hlive.
    + done.
Qed.

Lemma later_keeps w w' :
  later w w' →
  (∀ g l, caches w !! g = Some l → caches w' !! g = Some l) ∧
  (caches_ok w → caches_ok w').
Proof.
  induction 1 as [w|w f r w1 w2 Hcall _ [IHkeep IHok]
                  |w w1 w2 Hc Hsub _ [IHkeep IHok]].
  - done.
  - destruct (accessor_step _ _ _ _ Hcall) as (Hkeep & _ & Hok).
    split; [intros g l Hg; by apply IHkeep, Hkeep | by intros ?%Hok%IHok].
  - split.
    + intros g l Hg. apply IHkeep. by rewrite Hc.
    + intros [Hlive Hinj]. apply IHok. split; rewrite Hc; [|done].
      intros g l Hg. apply Hsub. by eapply Hlive.
Qed.

Lemma process_state_caches_ok w : process_state w → caches_ok w.
Proof.
  intros (w0 & Hempty & Hlater).
  apply (later_keeps _ _ Hlater). split.
  - intros f l. by rewrite Hempty, lookup_empty.
  - intros f g l. by rewrite Hempty, lookup_empty.
Qed.

(** C4: once a call of a cached accessor has returned an object, the cache
    of the accessor holds it.  In every state in which the cache holds it,
    a call returns that object and leaves the process as it finds it: the
    helper is not run again.  Calls of the accessors and other code of the
    process, which does not clear the caches, keep the object in the
    cache. *)
Theorem cached_accessor_returns_same_object f w l w1 :
  accessor f w = (Ok l, w1) →
  caches w1 !! f = Some l ∧
  (∀ w2, caches w2 !! f = Some l → accessor f w2 = (Ok l, w2)) ∧
  (∀ w2, later w1 w2 →
         caches w2 !! f = Some l ∧ accessor f w2 = (Ok l, w2)).
Proof.
  intros Hfirst.
  assert (caches w1 !! f = Some l) as Hc1
    by (rewrite accessor_unfold in Hfirst; by eapply lru_cache_returns).
  assert (∀ w2, caches w2 !! f = Some l → accessor f w2 = (Ok l, w2)) as Hhit
    by (intros w2 Hc2; rewrite accessor_unfold; by apply lru_cache_hit).
  split_and!; [done | done |].
  intros w2 Hlater.
  assert (caches w2 !! f = Some l) as Hc2
    by (by apply (later_keeps _ _ Hlater)).
  split; [done | by apply Hhit].
Qed.

(** C5: in a process that started with empty caches, two different cached
    accessors return different objects. *)
Theorem distinct_accessors_return_distinct_objects f g w l1 w1 w2 l2 w3 :
  process_state w →
  f ≠ g →
  accessor f w = (Ok l1, w1) →
  later w1 w2 →
  accessor g w2 = (Ok l2, w3) →
  l1 ≠ l2.
Proof.
  intros Hproc Hfg Hf Hlater Hg.
  pose proof (process_state_caches_ok _ Hproc) as Hok.
  destruct (accessor_step _ _ _ _ Hf) as (_ & _ & Hok1).
  destruct (later_keeps _ _ Hlater) as [Hkeep Hok2].
  specialize (Hok2 (Hok1 Hok)). destruct Hok2 as [Hlive Hinj].
  assert (caches w2 !! f = Some l1) as Hcf.
  { apply Hkeep. rewrite accessor_unfold in Hf. by eapply lru_cache_returns. }
  rewrite accessor_unfold in Hg. unfold lru_cache in Hg.
  destruct (caches w2 !! g) as [l|] eqn:Hcg.
  - injection Hg as <- <-. intros <-. apply Hfg. by eapply Hinj.
  - destruct (accessor_body g w2) as [[l|e] w'] eqn:Hbody; [|done].
    injection Hg as <- <-.
    destruct (helper_frame _ _ _ _ _ Hbody) as (_ & _ & Hnew).
    destruct (Hnew l eq_refl) as [Hfresh _].
    intros <-. apply Hfresh. by eapply Hlive.
Qed.

(** C8: nothing in the file handles an exception.  The template, the
    helper and every cached accessor raise exactly what a call into the
    framework raised, and an accessor whose body raises stores nothing. *)
Theorem exceptions_propagate_unchanged :
  (∀ conv_fn (has_bn : bool) unary_fn
     (x conv_weight conv_bias : Val) bn_weight bn_bias bn_rm bn_rv (e : Exn),
      _get_conv_unary_pattern conv_fn has_bn unary_fn
        x conv_weight conv_bias bn_weight bn_bias bn_rm bn_rv = Raise e ↔
      conv_fn x conv_weight conv_bias = Raise e ∨
      (∃ conv,
          conv_fn x conv_weight conv_bias = Ok conv ∧
          has_bn = true ∧
          batch_norm conv bn_rm bn_rv bn_weight bn_bias true = Raise e) ∨
      (∃ conv bn f,
          conv_fn x conv_weight conv_bias = Ok conv ∧
          (if has_bn
           then batch_norm conv bn_rm bn_rv bn_weight bn_bias true = Ok bn
           else bn = conv) ∧
          unary_fn = Some f ∧
          f bn = Raise e)) ∧
  (∀ pattern example_inputs w e w',
      _generate_pattern_matcher_helper pattern example_inputs w
        = (Raise e, w') ↔
      helper_call_raises pattern example_inputs w e w') ∧
  (∀ f w e w',
      accessor f w = (Raise e, w') ↔
      caches w !! f = None ∧
      helper_call_raises (accessor_pattern f) (accessor_inputs f) w e w').
Proof.
  split_and!.
  - intros. apply conv_unary_pattern_raises.
  - intros. apply helper_raises.
  - intros f w e w'. rewrite accessor_unfold, lru_cache_raises.
    unfold accessor_body. by rewrite helper_raises.
Qed.

End MatcherTheory.
(** ** The accessors on a concrete framework *)

Example relu_accessor_first_call :
  accessor (H0 := fx_counting) Conv2dRelu world0
    = (Ok 1%positive, world_after Conv2dRelu world0) ∧
  ext (world_after Conv2dRelu world0) = 4%nat.
Proof. split; reflexivity. Qed.

Lemma cached_accessor_returns_same_object_witness :
  accessor (H0 := fx_counting) Conv2dRelu world0
    = (Ok 1%positive, world_after Conv2dRelu world0) ∧
  caches (world_after Conv2dRelu world0) !! Conv2dRelu = Some 1%positive ∧
  (∀ w2, caches w2 !! Conv2dRelu = Some 1%positive →
         accessor (H0 := fx_counting) Conv2dRelu w2 = (Ok 1%positive, w2)) ∧
  (∀ w2, later (world_after Conv2dRelu world0) w2 →
         caches w2 !! Conv2dRelu = Some 1%positive ∧
         accessor (H0 := fx_counting) Conv2dRelu w2 = (Ok 1%positive, w2)).
Proof.
  split; [reflexivity|].
  apply (cached_accessor_returns_same_object (H0 := fx_counting)
           Conv2dRelu world0 1%positive (world_after Conv2dRelu world0)).
  reflexivity.
Defined.

(** A first call that raises caches nothing: on a framework whose
    [recompile] raises, the second call of the accessor runs the helper
    again, three more framework calls after the three of the first. *)
Lemma cached_accessor_counterexample :
  ¬ (∀ r1 w1 r2 w2,
       accessor (H0 := fx_recompile_raises) Conv2dRelu world0_raising
         = (r1, w1) →
       accessor (H0 := fx_recompile_raises) Conv2dRelu w1 = (r2, w2) →
       w2 = w1).
Proof.
  intros Hclaim.
  pose proof (Hclaim _ _ _ _ eq_refl eq_refl) as Hsame.
  apply (f_equal ext) in Hsame. vm_compute in Hsame. discriminate Hsame.
Qed.

Example raising_accessor_runs_helper_twice :
  accessor (H0 := fx_recompile_raises) Conv2dRelu world0_raising
    = (Raise "recompile"%string,
       mkWorld (H0 := fx_recompile_raises) 3%nat ∅ ∅) ∧
  accessor (H0 := fx_recompile_raises) Conv2dRelu
      (mkWorld (H0 := fx_recompile_raises) 3%nat ∅ ∅)
    = (Raise "recompile"%string,
       mkWorld (H0 := fx_recompile_raises) 6%nat ∅ ∅).
Proof. split; reflexivity. Qed.

(** After [cache_clear()] the accessor builds another object. *)
Example cache_clear_rebuilds :
  accessor (H0 := fx_counting) Conv2dRelu world0
    = (Ok 1%positive, world_after Conv2dRelu world0) ∧
  (accessor (H0 := fx_counting) Conv2dRelu
     (cache_clear Conv2dRelu (world_after Conv2dRelu world0))).1
    = Ok 2%positive.
Proof. split; reflexivity. Qed.

Lemma distinct_accessors_return_distinct_objects_witness :
  process_state world0 ∧
  Conv2dRelu ≠ Conv2dHardtanh ∧
  accessor (H0 := fx_counting) Conv2dRelu world0
    = (Ok 1%positive, world_after Conv2dRelu world0) ∧
  later (world_after Conv2dRelu world0) (world_after Conv2dRelu world0) ∧
  accessor (H0 := fx_counting) Conv2dHardtanh (world_after Conv2dRelu world0)
    = (Ok 2%positive,
       world_after Conv2dHardtanh (world_after Conv2dRelu world0)) ∧
  1%positive ≠ 2%positive.
Proof.
  assert (process_state world0) as Hproc.
  { exists world0. split; [reflexivity | apply later_now]. }
  split; [exact Hproc|]. split; [discriminate|]. split; [reflexivity|].
  split; [apply later_now|]. split; [reflexivity|].
  apply (distinct_accessors_return_distinct_objects (H0 := fx_counting)
           Conv2dRelu Conv2dHardtanh world0
           1%positive (world_after Conv2dRelu world0)
           (world_after Conv2dRelu world0)
           2%positive
           (world_after Conv2dHardtanh (world_after Conv2dRelu world0)));
    [exact Hproc | discriminate | reflexivity | apply later_now | reflexivity].
Defined.
(** * Further properties *)

(** ** The annotation helpers *)

Section AnnotateMore.

Context `{QuantizationAnnotationInit}.

(** On a node that already has an input map, the call sets the entry of its
    input node and keeps every other entry. *)
Theorem annotate_input_keeps_other_entries h n i q m :
  annotatable h n = true →
  input_qspec_map_of h n = Some m →
  ∃ h' m',
    _annotate_input_qspec_map n i q h = Some h' ∧
    input_qspec_map_of h' n = Some m' ∧
    m' !! i = Some q ∧
    ∀ j, j ≠ i → m' !! j = m !! j.
Proof.
  intros Hok Hm.
  destruct (annotate_input_view h n i q Hok) as (h' & Hrun & _ & Hm' & _).
  rewrite (entries_before_of_map _ _ _ Hm) in Hm'.
  exists h', (<[i := q]> m). split_and!; [done | done | |].
  - apply lookup_insert_eq.
  - intros j Hj. by rewrite lookup_insert_ne.
Qed.

Lemma annotate_keeps_annotation_object_aux h n a :
  annotatable h n = true →
  annotation_of h n = Some a →
  (∀ i q h', _annotate_input_qspec_map n i q h = Some h' →
             annotation_of h' n = Some a) ∧
  (∀ q h', _annotate_output_qspec n q h = Some h' →
           annotation_of h' n = Some a).
Proof.
  intros Hok Ha. split.
  - intros i q h' Hrun.
    destruct (annotate_input_effect h n i q Hok)
      as (h1 & nd & a' & d & Hrun1 & Hn & Hn' & _ & _ & _ & _ & Hcase).
    assert (h1 = h') as -> by congruence.
    rewrite Ha in Hcase. destruct Hcase as [-> _].
    eapply annotation_of_annotated. by rewrite Hn', lookup_insert_eq.
  - intros q h' Hrun.
    destruct (annotate_output_view h n q Hok) as (h1 & Hrun1 & _ & _ & _ & Hsame).
    assert (h1 = h') as -> by congruence.
    by destruct (Hsame a Ha) as (Ha' & _).
Qed.

(** A node that has an annotation keeps the same annotation object through
    either helper, and the same dictionary object when it had one: the
    objects are updated in place. *)
Theorem annotate_keeps_annotation_object h n a i q :
  annotatable h n = true →
  annotation_of h n = Some a →
  (∃ h',
      _annotate_input_qspec_map n i q h = Some h' ∧
      annotation_of h' n = Some a ∧
      ∀ d, get_input_qspec_map a h = Some (Some d) →
           get_input_qspec_map a h' = Some (Some d)) ∧
  (∃ h',
      _annotate_output_qspec n q h = Some h' ∧
      annotation_of h' n = Some a ∧
      get_input_qspec_map a h' = get_input_qspec_map a h).
Proof.
  intros Hok Ha. split.
  - destruct (annotate_input_effect h n i q Hok)
      as (h' & nd & a' & d & Hrun & Hn & Hn' & Ha' & _ & _ & _ & Hcase).
    rewrite Ha in Hcase. destruct Hcase as [-> Hsame].
    exists h'. split_and!; [done | |].
    + eapply annotation_of_annotated. by rewrite Hn', lookup_insert_eq.
    + intros d0. unfold get_input_qspec_map. rewrite Ha'. simpl.
      destruct (annotations h !! a) as [r|] eqn:Hr; [|done]. simpl.
      intros [= Hd0]. by rewrite (Hsame r d0 eq_refl Hd0).
  - destruct (annotate_output_view h n q Hok) as (h' & Hrun & _ & _ & _ & Hsame).
    destruct (Hsame a Ha) as (Ha' & Hget & _). by exists h'.
Qed.

(** Two nodes that refer to one annotation object: what either helper
    writes through the first is what the second reads. *)
Theorem annotate_seen_through_shared_annotation h n m a i q :
  annotatable h n = true →
  annotation_of h n = Some a →
  annotation_of h m = Some a →
  (∃ h',
      _annotate_input_qspec_map n i q h = Some h' ∧
      input_qspec_map_of h' m = Some (<[i := q]> (entries_before h n))) ∧
  (∃ h',
      _annotate_output_qspec n q h = Some h' ∧
      output_qspec_of h' m = Some q).
Proof.
  intros Hok Han Ham.
  assert (∀ h', (∀ k, k ≠ n → nodes h' !! k = nodes h !! k) →
                annotation_of h' n = Some a → annotation_of h' m = Some a)
    as Hm'.
  { intros h' Hframe Hn'. destruct (decide (m = n)) as [->|Hne]; [done|].
    unfold annotation_of in Ham |- *. by rewrite (Hframe m Hne). }
  split.
  - destruct (annotate_input_view h n i q Hok) as (h' & Hrun & _ & Hmap & _).
    destruct (annotate_input_only_touches h n i q h' Hok Hrun) as (Hfr & _).
    destruct (annotate_keeps_annotation_object_aux h n a) as [Hin _]; [done..|].
    exists h'. split; [done|].
    specialize (Hin i q h' Hrun).
    unfold input_qspec_map_of in Hmap |- *.
    by rewrite (Hm' h' Hfr Hin), <- Hin.
  - destruct (annotate_output_view h n q Hok) as (h' & Hrun & _ & Hout & _).
    destruct (annotate_output_only_touches h n q h' Hok Hrun) as [(Hfr & _) _].
    destruct (annotate_keeps_annotation_object_aux h n a) as [_ Hon]; [done..|].
    exists h'. split; [done|].
    specialize (Hon q h' Hrun).
    unfold output_qspec_of in Hout |- *.
    by rewrite (Hm' h' Hfr Hon), <- Hon.
Qed.

(** An annotation whose [input_qspec_map] is [None] gets a dictionary that
    was not in the heap, holding the one new entry; its [output_qspec]
    stays. *)
Theorem annotate_input_replaces_None_map h n nd a o i q :
  nodes h !! n = Some nd →
  meta nd !! qa_key = Some (MAnnotation a) →
  annotations h !! a = Some (mkQA None o) →
  ∃ h' d,
    _annotate_input_qspec_map n i q h = Some h' ∧
    (d ∉ dom (dicts h)) ∧
    annotation_of h' n = Some a ∧
    annotations h' !! a = Some (mkQA (Some d) o) ∧
    dicts h' !! d = Some {[i := q]}.
Proof.
  intros Hn Hmeta Ha.
  assert (annotatable h n = true) as Hok
    by (eapply annotatable_intro; [done..|]; by intros d [=]).
  assert (annotation_of h n = Some a) as Hao.
  { unfold annotation_of. rewrite Hn. simpl. by rewrite Hmeta. }
  destruct (annotate_input_dict_origin h n i q Hok)
    as (h' & a' & d & Hrun & Ha' & Hrec & Horigin).
  destruct (annotate_keeps_annotation_object_aux h n a Hok Hao) as [Hkeep _].
  assert (a' = a) as -> by (specialize (Hkeep i q h' Hrun); congruence).
  destruct (annotate_input_view h n i q Hok) as (h1 & Hrun1 & _ & Hmap & _).
  assert (h1 = h') as -> by congruence.
  exists h', d. split_and!; [done | | done | |].
  - intros Hold. destruct (Horigin Hold) as (r & _ & Hr & Hd).
    rewrite Ha in Hr. injection Hr as <-. done.
  - rewrite Hrec. unfold output_before, output_qspec_of, get_output_qspec.
    rewrite Hao. simpl. by rewrite Ha.
  - unfold input_qspec_map_of, get_input_qspec_map in Hmap.
    rewrite Ha' in Hmap. simpl in Hmap. rewrite Hrec in Hmap. simpl in Hmap.
    rewrite Hmap. unfold entries_before. rewrite Hao, Ha. simpl.
    by rewrite insert_empty.
Qed.

(** A node that shares no object with [n] reads the same annotation fields
    after either helper has run on [n]. *)
Theorem annotate_leaves_unshared_node_alone h n m i q :
  annotatable h n = true →
  annotatable h m = true →
  m ≠ n →
  unshared h n m →
  (∃ h',
      _annotate_input_qspec_map n i q h = Some h' ∧
      output_qspec_of h' m = output_qspec_of h m ∧
      input_qspec_map_of h' m = input_qspec_map_of h m) ∧
  (∃ h',
      _annotate_output_qspec n q h = Some h' ∧
      output_qspec_of h' m = output_qspec_of h m ∧
      input_qspec_map_of h' m = input_qspec_map_of h m).
Proof.
  intros Hok Hokm Hne Hun.
  assert (∀ h', (∀ k, k ≠ n → nodes h' !! k = nodes h !! k) →
                annotation_of h' m = annotation_of h m) as Hsame.
  { intros h' Hframe. unfold annotation_of. by rewrite (Hframe m Hne). }
  destruct (annotatable_cases h m Hokm) as (ndm & Hnm & [[_ Hno]|Hyes]).
  { (* [m] has no annotation *)
    split.
    - destruct (annotate_input_view h n i q Hok) as (h' & Hrun & _).
      destruct (annotate_input_only_touches h n i q h' Hok Hrun) as (Hfr & _).
      exists h'. unfold output_qspec_of, input_qspec_map_of.
      by rewrite (Hsame h' Hfr), Hno.
    - destruct (annotate_output_view h n q Hok) as (h' & Hrun & _).
      destruct (annotate_output_only_touches h n q h' Hok Hrun)
        as [(Hfr & _) _].
      exists h'. unfold output_qspec_of, input_qspec_map_of.
      by rewrite (Hsame h' Hfr), Hno. }
  destruct Hyes as (b & rb & _ & Hb & Hrb & Hdb).
  assert (b ∈ dom (annotations h)) as Hbdom by (apply elem_of_dom; eauto).
  split.
  - destruct (annotate_input_dict_origin h n i q Hok)
      as (h' & a & d & Hrun & Ha' & Hrec & Horigin).
    destruct (annotate_input_only_touches h n i q h' Hok Hrun)
      as (Hfr & _ & Hfa & Hfd).
    destruct (annotate_input_effect h n i q Hok)
      as (h1 & nd1 & a1 & d1 & Hrun1 & _ & Hn1 & _ & _ & _ & _ & Hcase).
    assert (h1 = h') as -> by congruence.
    assert (a1 = a) as ->.
    { assert (annotation_of h' n = Some a1) as Hx
        by (eapply annotation_of_annotated; by rewrite Hn1, lookup_insert_eq).
      congruence. }
    assert (b ≠ a) as Hba.
    { intros Heq. destruct (annotation_of h n) as [a0|] eqn:Hao.
      - destruct Hcase as [Ha0 _]. destruct (Hun a0 b Hao Hb) as [Hx _].
        congruence.
      - destruct Hcase as [Hfresh _]. apply Hfresh. by rewrite <- Heq. }
    assert (annotations h' !! b = Some rb) as Hrb'.
    { rewrite Hfa; [done | done |]. rewrite Ha'. congruence. }
    exists h'. split; [done|].
    unfold output_qspec_of, input_qspec_map_of, get_output_qspec,
      get_input_qspec_map.
    rewrite (Hsame h' Hfr), Hb. simpl. rewrite Hrb', Hrb. simpl.
    split; [done|].
    destruct (input_qspec_map rb) as [db|] eqn:Hfield; [|done]. simpl.
    apply Hfd; [by apply Hdb|].
    rewrite Ha'. simpl. unfold get_input_qspec_map. rewrite Hrec. simpl.
    intros [= ->].
    destruct (Horigin (Hdb d eq_refl)) as (r & Hao & Hr & Hd).
    destruct (Hun a b Hao Hb) as [_ Hdict].
    apply (Hdict d); unfold get_input_qspec_map.
    + by rewrite Hr; simpl; rewrite Hd.
    + by rewrite Hrb; simpl; rewrite Hfield.
  - destruct (annotate_output_effect h n q Hok)
      as (h' & nd & a & im & Hrun & Hn & Hn' & Ha' & _ & Hfa & Hfd & Hcase).
    assert (∀ k, k ≠ n → nodes h' !! k = nodes h !! k) as Hfr
      by (intros k Hk; by rewrite Hn', lookup_insert_ne).
    assert (b ≠ a) as Hba.
    { intros Heq. destruct (annotation_of h n) as [a0|] eqn:Hao.
      - destruct Hcase as [Ha0 _]. destruct (Hun a0 b Hao Hb) as [Hx _].
        congruence.
      - destruct Hcase as [Hfresh _]. apply Hfresh. by rewrite <- Heq. }
    exists h'. split; [done|].
    unfold output_qspec_of, input_qspec_map_of, get_output_qspec,
      get_input_qspec_map.
    rewrite (Hsame h' Hfr), Hb. simpl.
    rewrite (Hfa b Hba Hbdom), Hrb. simpl. split; [done|].
    destruct (input_qspec_map rb) as [db|] eqn:Hfield; [|done]. simpl.
    apply Hfd. by apply Hdb.
Qed.

(** *** Composing calls *)

(** One call of each helper, as a step on what the node holds. *)
Lemma annotate_input_step h n i q :
  annotatable h n = true →
  ∃ h',
    _annotate_input_qspec_map n i q h = Some h' ∧
    annotatable h' n = true ∧
    input_qspec_map_of h' n = Some (<[i := q]> (entries_before h n)) ∧
    output_qspec_of h' n = Some (output_before h n) ∧
    entries_before h' n = <[i := q]> (entries_before h n) ∧
    output_before h' n = output_before h n.
Proof.
  intros Hok.
  destruct (annotate_input_view h n i q Hok) as (h' & Hrun & Hok' & Hm & Ho).
  exists h'. split_and!; try done.
  - by apply entries_before_of_map.
  - by apply output_before_of.
Qed.

Lemma annotate_output_step h n q :
  annotatable h n = true →
  ∃ h',
    _annotate_output_qspec n q h = Some h' ∧
    annotatable h' n = true ∧
    output_qspec_of h' n = Some q ∧
    entries_before h' n = entries_before h n ∧
    output_before h' n = q ∧
    (∀ m, input_qspec_map_of h n = Some m → input_qspec_map_of h' n = Some m).
Proof.
  intros Hok.
  destruct (annotate_output_view h n q Hok)
    as (h' & Hrun & Hok' & Ho & He & Hsame).
  exists h'. split_and!; try done.
  - by apply output_before_of.
  - intros m Hm.
    destruct (annotation_of h n) as [a|] eqn:Ha.
    + by destruct (Hsame a eq_refl) as (_ & _ & ->).
    + unfold input_qspec_map_of in Hm. by rewrite Ha in Hm.
Qed.

(** The two helpers commute: annotating an input and the output of one node
    in either order leaves the same entries and the same output spec. *)
Theorem annotate_input_output_commute h n i q q' :
  annotatable h n = true →
  ∃ hio hoi,
    (_annotate_input_qspec_map n i q h ≫= _annotate_output_qspec n q')
      = Some hio ∧
    (_annotate_output_qspec n q' h ≫= _annotate_input_qspec_map n i q)
      = Some hoi ∧
    input_qspec_map_of hio n = Some (<[i := q]> (entries_before h n)) ∧
    input_qspec_map_of hoi n = Some (<[i := q]> (entries_before h n)) ∧
    output_qspec_of hio n = Some q' ∧
    output_qspec_of hoi n = Some q'.
Proof.
  intros Hok.
  destruct (annotate_input_step h n i q Hok)
    as (h1 & Hrun1 & Hok1 & Hm1 & _ & _ & _).
  destruct (annotate_output_step h1 n q' Hok1)
    as (hio & Hrun2 & _ & Ho2 & _ & _ & Hkeep).
  destruct (annotate_output_step h n q' Hok)
    as (h3 & Hrun3 & Hok3 & _ & He3 & Hb3 & _).
  destruct (annotate_input_step h3 n i q Hok3)
    as (hoi & Hrun4 & _ & Hm4 & Ho4 & _ & _).
  exists hio, hoi. rewrite Hrun1, Hrun3. simpl.
  split_and!; [done | done | by apply Hkeep | | done |].
  - by rewrite Hm4, He3.
  - by rewrite Ho4, Hb3.
Qed.

(** Input annotations for distinct input nodes commute. *)
Theorem annotate_input_order_irrelevant h n i1 i2 q1 q2 :
  annotatable h n = true →
  i1 ≠ i2 →
  ∃ h12 h21 m,
    (_annotate_input_qspec_map n i1 q1 h ≫= _annotate_input_qspec_map n i2 q2)
      = Some h12 ∧
    (_annotate_input_qspec_map n i2 q2 h ≫= _annotate_input_qspec_map n i1 q1)
      = Some h21 ∧
    input_qspec_map_of h12 n = Some m ∧
    input_qspec_map_of h21 n = Some m ∧
    output_qspec_of h12 n = output_qspec_of h21 n.
Proof.
  intros Hok Hne.
  destruct (annotate_input_step h n i1 q1 Hok)
    as (h1 & Hrun1 & Hok1 & _ & _ & He1 & Hb1).
  destruct (annotate_input_step h1 n i2 q2 Hok1)
    as (h12 & Hrun12 & _ & Hm12 & Ho12 & _ & _).
  destruct (annotate_input_step h n i2 q2 Hok)
    as (h2 & Hrun2 & Hok2 & _ & _ & He2 & Hb2).
  destruct (annotate_input_step h2 n i1 q1 Hok2)
    as (h21 & Hrun21 & _ & Hm21 & Ho21 & _ & _).
  exists h12, h21, (<[i2 := q2]> (<[i1 := q1]> (entries_before h n))).
  rewrite Hrun1, Hrun2. simpl.
  split_and!; [done | done | | |].
  - by rewrite Hm12, He1.
  - rewrite Hm21, He2. f_equal. by apply insert_insert_ne.
  - by rewrite Ho12, Ho21, Hb1, Hb2.
Qed.

(** Repeating a call with the same arguments changes nothing that the node
    holds. *)
Theorem annotate_idempotent h n i q :
  annotatable h n = true →
  (∃ h1 h2,
      _annotate_input_qspec_map n i q h = Some h1 ∧
      _annotate_input_qspec_map n i q h1 = Some h2 ∧
      input_qspec_map_of h2 n = input_qspec_map_of h1 n ∧
      output_qspec_of h2 n = output_qspec_of h1 n ∧
      annotation_of h2 n = annotation_of h1 n) ∧
  (∃ h1 h2,
      _annotate_output_qspec n q h = Some h1 ∧
      _annotate_output_qspec n q h1 = Some h2 ∧
      input_qspec_map_of h2 n = input_qspec_map_of h1 n ∧
      output_qspec_of h2 n = output_qspec_of h1 n ∧
      annotation_of h2 n = annotation_of h1 n).
Proof.
  intros Hok. split.
  - destruct (annotate_input_step h n i q Hok)
      as (h1 & Hrun1 & Hok1 & Hm1 & Ho1 & He1 & Hb1).
    destruct (annotate_input_step h1 n i q Hok1)
      as (h2 & Hrun2 & _ & Hm2 & Ho2 & _ & _).
    exists h1, h2. split_and!; [done | done | | |].
    + by rewrite Hm2, He1, insert_insert_eq, Hm1.
    + by rewrite Ho2, Hb1, Ho1.
    + destruct (annotation_of h1 n) as [a|] eqn:Ha.
      * destruct (annotate_keeps_annotation_object_aux h1 n a Hok1 Ha)
          as [Hk _].
        apply (Hk i q h2 Hrun2).
      * unfold output_qspec_of in Ho1. by rewrite Ha in Ho1.
  - destruct (annotate_output_step h n q Hok)
      as (h1 & Hrun1 & Hok1 & Ho1 & _ & _ & _).
    destruct (annotate_output_view h1 n q Hok1)
      as (h2 & Hrun2 & _ & Ho2 & _ & Hsame).
    exists h1, h2. split_and!; [done | done | | |].
    + destruct (annotation_of h1 n) as [a|] eqn:Ha.
      * by destruct (Hsame a eq_refl) as (_ & _ & ->).
      * unfold output_qspec_of in Ho1. by rewrite Ha in Ho1.
    + by rewrite Ho2, Ho1.
    + destruct (annotation_of h1 n) as [a|] eqn:Ha.
      * by destruct (Hsame a eq_refl) as (-> & _).
      * unfold output_qspec_of in Ho1. by rewrite Ha in Ho1.
Qed.

Lemma insert_entries_absent (l : list (positive * QSpec)) i
    (m : gmap positive QSpec) :
  i ∉ l.*1 →
  foldl (λ m iq, <[iq.1 := iq.2]> m) m l !! i = m !! i.
Proof.
  revert m. induction l as [|[j q] l IH]; intros m Hi; [done|].
  simpl in *. apply not_elem_of_cons in Hi as [Hij Hi].
  rewrite IH by done. by rewrite lookup_insert_ne.
Qed.

Lemma annotate_inputs_fold h n l :
  annotatable h n = true →
  ∃ h',
    annotate_inputs n l h = Some h' ∧
    annotatable h' n = true ∧
    entries_before h' n
      = foldl (λ m iq, <[iq.1 := iq.2]> m) (entries_before h n) l ∧
    output_before h' n = output_before h n ∧
    (l ≠ [] → input_qspec_map_of h' n = Some (entries_before h' n)).
Proof.
  revert h. induction l as [|[i q] l IH]; intros h Hok.
  - by exists h.
  - destruct (annotate_input_step h n i q Hok)
      as (h1 & Hrun1 & Hok1 & Hm1 & _ & He1 & Hb1).
    destruct (IH h1 Hok1) as (h' & Hrun & Hok' & He & Hb & Hm).
    exists h'. simpl. rewrite Hrun1. simpl.
    split_and!; [done | done | by rewrite He, He1 | by rewrite Hb | ].
    intros _. destruct l as [|x l]; [|by apply Hm].
    simpl in Hrun. injection Hrun as <-. by rewrite He1.
Qed.

(** A sequence of input annotations on one node: each input node of the
    sequence ends with the spec of its last call, every other key keeps
    what it had, and the output spec is as before. *)
Theorem annotate_inputs_last_write_wins h n l :
  annotatable h n = true →
  ∃ h',
    annotate_inputs n l h = Some h' ∧
    output_before h' n = output_before h n ∧
    (∀ l1 i q l2, l = (l1 ++ (i, q) :: l2)%list → i ∉ l2.*1 →
       ∃ m, input_qspec_map_of h' n = Some m ∧ m !! i = Some q) ∧
    (∀ i, i ∉ l.*1 → entries_before h' n !! i = entries_before h n !! i).
Proof.
  intros Hok.
  destruct (annotate_inputs_fold h n l Hok) as (h' & Hrun & _ & He & Hb & Hm).
  exists h'. split_and!; [done | done | |].
  - intros l1 i q l2 -> Hi. eexists. split; [apply Hm; by destruct l1|].
    rewrite He, foldl_app. simpl.
    rewrite insert_entries_absent by done. apply lookup_insert_eq.
  - intros i Hi. rewrite He. by apply insert_entries_absent.
Qed.

End AnnotateMore.

Section AnnotateAndSymSize.

Context `{QuantizationAnnotationInit} `{Pt2eUtils}.

Lemma only_touches_keeps_users n h h' m :
  only_touches n h h' →
  users <$> nodes h' !! m = users <$> nodes h !! m.
Proof.
  intros (Hfr & (nd & nd' & Hn & Hn' & Hu & _) & _).
  destruct (decide (m = n)) as [->|Hne].
  - by rewrite Hn, Hn'; simpl; rewrite Hu.
  - by rewrite Hfr.
Qed.

Lemma node_only_used_for_sym_size_users h h' m p :
  users <$> nodes h' !! m = users <$> nodes h !! m →
  _node_only_used_for_sym_size m p h' = _node_only_used_for_sym_size m p h.
Proof.
  intros Hu. unfold _node_only_used_for_sym_size.
  destruct (_is_sym_size_node m); [done|].
  destruct (nodes h' !! m) as [nd'|], (nodes h !! m) as [nd|];
    simpl in *; try done.
  by injection Hu as ->.
Qed.

(** Annotating a node changes no answer of [_node_only_used_for_sym_size],
    for any node and any partition. *)
Theorem annotate_preserves_node_only_used_for_sym_size h n i q m p :
  annotatable h n = true →
  (∃ h',
      _annotate_input_qspec_map n i q h = Some h' ∧
      _node_only_used_for_sym_size m p h'
        = _node_only_used_for_sym_size m p h) ∧
  (∃ h',
      _annotate_output_qspec n q h = Some h' ∧
      _node_only_used_for_sym_size m p h'
        = _node_only_used_for_sym_size m p h).
Proof.
  intros Hok. split.
  - destruct (annotate_input_view h n i q Hok) as (h' & Hrun & _).
    exists h'. split; [done|].
    apply node_only_used_for_sym_size_users.
    eapply only_touches_keeps_users. by eapply annotate_input_only_touches.
  - destruct (annotate_output_view h n q Hok) as (h' & Hrun & _).
    exists h'. split; [done|].
    apply node_only_used_for_sym_size_users.
    eapply only_touches_keeps_users.
    by eapply annotate_output_only_touches.
Qed.

End AnnotateAndSymSize.
(** ** Nodes used only to read a size *)

Section SymSizeMore.

Context `{Pt2eUtils}.

(** A node none of whose users is in the partition is used only for sizes;
    so is every node when the partition is empty, and every node without
    users. *)
Theorem node_only_used_for_sym_size_no_user_in_partition
    h node nd partition_nodes :
  nodes h !! node = Some nd →
  (∀ user, user ∈ users nd → user ∉ partition_nodes) →
  _node_only_used_for_sym_size node partition_nodes h = Some true.
Proof.
  intros Hn Hout. unfold _node_only_used_for_sym_size.
  destruct (_is_sym_size_node node); [done|].
  rewrite Hn. simpl. f_equal. apply users_check_spec.
  intros user Hin. left. by apply Hout.
Qed.

(** Shrinking the partition keeps a positive answer. *)
Theorem node_only_used_for_sym_size_smaller_partition
    h node (partition_nodes partition_nodes' : list positive) :
  (∀ x, x ∈ partition_nodes → x ∈ partition_nodes') →
  _node_only_used_for_sym_size node partition_nodes' h = Some true →
  _node_only_used_for_sym_size node partition_nodes h = Some true.
Proof.
  intros Hsub. unfold _node_only_used_for_sym_size.
  destruct (_is_sym_size_node node); [done|].
  destruct (nodes h !! node) as [nd|]; [|done]. simpl.
  intros [= Hbig]. f_equal.
  apply users_check_spec. intros user Hin.
  destruct (proj1 (users_check_spec _ _) Hbig user Hin) as [Hout|Hsym].
  - left. intros Hp. by apply Hout, Hsub.
  - by right.
Qed.

(** The answer depends on the partition only through its members: order
    and repetitions in the list do not matter. *)
Theorem node_only_used_for_sym_size_partition_as_set
    h node (partition_nodes partition_nodes' : list positive) :
  (∀ x, x ∈ partition_nodes ↔ x ∈ partition_nodes') →
  _node_only_used_for_sym_size node partition_nodes h
    = _node_only_used_for_sym_size node partition_nodes' h.
Proof.
  intros Hsame. unfold _node_only_used_for_sym_size.
  destruct (_is_sym_size_node node); [done|].
  destruct (nodes h !! node) as [nd|]; [|done]. simpl. f_equal.
  induction (users nd) as [|u l IH]; [done|]. simpl. rewrite IH.
  do 3 f_equal. apply bool_decide_ext, Hsame.
Qed.

End SymSizeMore.

Lemma node_only_used_for_sym_size_no_user_in_partition_witness :
  nodes heap0 !! 1 = Some (mkNode [2] ∅) ∧
  (∀ user, user ∈ users (mkNode [2] ∅) → user ∉ [3; 4]) ∧
  _node_only_used_for_sym_size (H := no_sym_size_node) 1 [3; 4] heap0
    = Some true.
Proof.
  assert (∀ user, user ∈ users (mkNode [2] ∅) → user ∉ [3; 4]) as Hout.
  { simpl. intros user ->%list_elem_of_singleton.
    rewrite !elem_of_cons, elem_of_nil. by intros [|[|]]. }
  split; [reflexivity|]. split; [exact Hout|].
  apply (@node_only_used_for_sym_size_no_user_in_partition no_sym_size_node
           heap0 1 (mkNode [2] ∅) [3; 4]); [reflexivity | exact Hout].
Defined.

Lemma node_only_used_for_sym_size_smaller_partition_witness :
  (∀ x, x ∈ [3] → x ∈ [3; 4]) ∧
  _node_only_used_for_sym_size (H := no_sym_size_node) 1 [3; 4] heap0
    = Some true ∧
  _node_only_used_for_sym_size (H := no_sym_size_node) 1 [3] heap0
    = Some true.
Proof.
  assert (∀ x : positive, x ∈ [3] → x ∈ [3; 4]) as Hsub
    by (intros x ->%list_elem_of_singleton; left).
  split; [exact Hsub|]. split; [reflexivity|].
  apply (@node_only_used_for_sym_size_smaller_partition no_sym_size_node
           heap0 1 [3] [3; 4]); [exact Hsub | reflexivity].
Defined.

Lemma node_only_used_for_sym_size_partition_as_set_witness :
  (∀ x, x ∈ [2; 3; 2] ↔ x ∈ [3; 2]) ∧
  _node_only_used_for_sym_size (H := no_sym_size_node) 1 [2; 3; 2] heap0
    = _node_only_used_for_sym_size (H := no_sym_size_node) 1 [3; 2] heap0.
Proof.
  assert (∀ x : positive, x ∈ [2; 3; 2] ↔ x ∈ [3; 2]) as Hsame
    by (intros x; rewrite !elem_of_cons, elem_of_nil; tauto).
  split; [exact Hsame|].
  apply (@node_only_used_for_sym_size_partition_as_set no_sym_size_node
           heap0 1 [2; 3; 2] [3; 2]); exact Hsame.
Defined.
(** ** The template *)

Section PatternMore.

Context `{TorchFunctional}.

(** Whenever the template returns, its name map is a dictionary of seven
    distinct keys in which ["output"] and ["unary"] hold the returned value,
    ["input"], ["conv_weight"] and ["conv_bias"] hold the arguments,
    ["conv"] holds what [conv_fn] returned, ["bn"] holds the same value when
    [has_bn] is false, and the returned value is the ["bn"] value when there
    is no [unary_fn]. *)
Theorem conv_unary_name_map_reads
    conv_fn (has_bn : bool) unary_fn
    (x conv_weight conv_bias : Val) bn_weight bn_bias bn_rm bn_rv
    (out : Val) name_map :
  _get_conv_unary_pattern conv_fn has_bn unary_fn
    x conv_weight conv_bias bn_weight bn_bias bn_rm bn_rv
    = Ok (out, name_map) →
  NoDup name_map.*1 ∧
  (list_to_map name_map : gmap string Val) !! "output" = Some out ∧
  (list_to_map name_map : gmap string Val) !! "unary" = Some out ∧
  (list_to_map name_map : gmap string Val) !! "input" = Some x ∧
  (list_to_map name_map : gmap string Val) !! "conv_weight"
    = Some conv_weight ∧
  (list_to_map name_map : gmap string Val) !! "conv_bias" = Some conv_bias ∧
  ∃ conv bn,
    conv_fn x conv_weight conv_bias = Ok conv ∧
    (list_to_map name_map : gmap string Val) !! "conv" = Some conv ∧
    (list_to_map name_map : gmap string Val) !! "bn" = Some bn ∧
    (has_bn = false → bn = conv) ∧
    (unary_fn = None → out = bn).
Proof.
  unfold _get_conv_unary_pattern.
  destruct (conv_fn x conv_weight conv_bias) as [conv|e] eqn:Hconv;
    simpl; [|done].
  destruct has_bn; simpl;
    [destruct (batch_norm conv bn_rm bn_rv bn_weight bn_bias true)
       as [bn|e] eqn:Hbn; simpl; [|done]|];
    (destruct unary_fn as [f|]; simpl;
       [match goal with |- context [f ?v] =>
          destruct (f v) as [u|e] eqn:Hf; simpl; [|done] end|]);
    intros [= <- <-]; simpl;
    (split;
       [repeat (apply NoDup_cons; split;
          [rewrite ?elem_of_cons, elem_of_nil;
           intros ?; intuition discriminate|]);
        apply NoDup_nil_2|]);
    (split_and!; try (by simplify_map_eq));
    eexists _, _; (split_and!; try done; by simplify_map_eq).
Qed.

End PatternMore.

Lemma conv_unary_name_map_reads_witness :
  ∃ name_map,
    _get_conv_unary_pattern (H := torch_on_Z) conv2d false None
      2%Z 3%Z 1%Z None None None None = Ok (7%Z, name_map) ∧
    NoDup name_map.*1 ∧
    (list_to_map name_map : gmap string Z) !! "output" = Some 7%Z.
Proof.
  eexists. split; [reflexivity|].
  destruct (@conv_unary_name_map_reads torch_on_Z conv2d false None
              2%Z 3%Z 1%Z None None None None 7%Z _ eq_refl)
    as (Hnodup & Hout & _).
  split; [exact Hnodup | exact Hout].
Defined.

(** ** The cached pattern matchers *)

Section MatcherMore.

Context `{TorchFx}.

(** The helper returns exactly when its four framework calls return, each
    on the state the one before left; the result is a new object, and no
    cache changes. *)
Lemma helper_returns_inv pattern example_inputs w l w' :
  _generate_pattern_matcher_helper pattern example_inputs w = (Ok l, w') ↔
  ∃ g x1 x2 x3 m,
    get_aten_graph_module pattern example_inputs (ext w) = (Ok g, x1) ∧
    eliminate_dead_code g x1 = (Ok (), x2) ∧
    recompile g x2 = (Ok (), x3) ∧
    matcher_init g true x3 = (Ok m, ext w') ∧
    l = fresh (dom (matchers w)) ∧
    matchers w' = <[l := m]> (matchers w) ∧
    caches w' = caches w.
Proof.
  unfold _generate_pattern_matcher_helper, mbind, M_bind, call,
    SubgraphMatcherWithNameNodeMap.
  split.
  - destruct (get_aten_graph_module pattern example_inputs (ext w))
      as [[g|e] x1] eqn:H1; simpl; [|done].
    destruct (eliminate_dead_code g x1) as [[[]|e] x2] eqn:H2; simpl; [|done].
    destruct (recompile g x2) as [[[]|e] x3] eqn:H3; simpl; [|done].
    destruct (matcher_init g true x3) as [[m|e] x4] eqn:H4; [|done].
    intros [= <- <-]. simpl. by exists g, x1, x2, x3, m.
  - intros (g & x1 & x2 & x3 & m & H1 & H2 & H3 & H4 & -> & Hm & Hc).
    rewrite H1. simpl. rewrite H2. simpl. rewrite H3. simpl. rewrite H4.
    destruct w' as [x' ms' cs']. simpl in *. by subst.
Qed.

(** A call of the helper that raises changes the framework state only. *)
Lemma helper_raise_frame pattern example_inputs w e w' :
  _generate_pattern_matcher_helper pattern example_inputs w = (Raise e, w') →
  matchers w' = matchers w ∧ caches w' = caches w.
Proof.
  unfold _generate_pattern_matcher_helper, mbind, M_bind, call,
    SubgraphMatcherWithNameNodeMap.
  destruct (get_aten_graph_module pattern example_inputs (ext w))
    as [[g|e1] x1]; simpl; [|by intros [= <- <-]].
  destruct (eliminate_dead_code g x1) as [[[]|e2] x2]; simpl;
    [|by intros [= <- <-]].
  destruct (recompile g x2) as [[[]|e3] x3]; simpl; [|by intros [= <- <-]].
  destruct (matcher_init g true x3) as [[m|e4] x4]; [done|].
  by intros [= <- <-].
Qed.

(** Exceptions are not memoised: an accessor call that raises leaves every
    cache and every matcher object as they were, so the next call of the
    accessor runs its body again and stores the object if that returns. *)
Theorem raising_accessor_is_retried f w e w1 :
  accessor f w = (Raise e, w1) →
  caches w1 = caches w ∧
  matchers w1 = matchers w ∧
  caches w1 !! f = None ∧
  accessor f w1 =
    match accessor_body f w1 with
    | (Ok l, w2) =>
        (Ok l, mkWorld (ext w2) (matchers w2) (<[f := l]> (caches w2)))
    | (Raise e', w2) => (Raise e', w2)
    end.
Proof.
  rewrite accessor_unfold. intros [Hmiss Hbody]%lru_cache_raises.
  destruct (helper_raise_frame _ _ _ _ _ Hbody) as [Hm Hc].
  split_and!; [done | done | by rewrite Hc |].
  unfold lru_cache. by rewrite Hc, Hmiss.
Qed.

(** A call of one accessor changes no other accessor's cache, and changes
    or removes no matcher object that exists. *)
Theorem accessor_touches_own_cache_only f w r w1 :
  accessor f w = (r, w1) →
  (∀ g, g ≠ f → caches w1 !! g = caches w !! g) ∧
  (∀ l m, matchers w !! l = Some m → matchers w1 !! l = Some m).
Proof.
  rewrite accessor_unfold. unfold lru_cache.
  destruct (caches w !! f) as [l0|] eqn:Hf; [by intros [= <- <-]|].
  destruct (accessor_body f w) as [[l|e] w'] eqn:Hbody; intros [= <- <-].
  - apply helper_returns_inv in Hbody
      as (g & x1 & x2 & x3 & m & _ & _ & _ & _ & -> & Hm & Hc).
    simpl. split.
    + intros g' Hg'. by rewrite lookup_insert_ne, Hc.
    + intros l m' Hl. rewrite Hm, lookup_insert_ne; [done|].
      intros <-. apply (is_fresh (dom (matchers w))), elem_of_dom. eauto.
  - destruct (helper_raise_frame _ _ _ _ _ Hbody) as [Hm Hc].
    by rewrite Hm, Hc.
Qed.


End MatcherMore.
(** ** The further properties on concrete heaps and frameworks *)

Lemma annotate_input_keeps_other_entries_witness :
  annotatable heap_two 2 = true ∧
  input_qspec_map_of heap_two 2 = Some (<[7 := QObj 3]> ∅) ∧
  ∃ h' m',
    _annotate_input_qspec_map (H := init_empty_dict) 2 1 (QObj 5) heap_two
      = Some h' ∧
    input_qspec_map_of h' 2 = Some m' ∧
    m' !! 1 = Some (QObj 5) ∧
    ∀ j, j ≠ 1 → m' !! j = (<[7 := QObj 3]> ∅ : gmap positive QSpec) !! j.
Proof.
  split; [reflexivity|]. split; [reflexivity|].
  apply (@annotate_input_keeps_other_entries init_empty_dict heap_two 2 1
           (QObj 5) (<[7 := QObj 3]> ∅));
    reflexivity.
Defined.

Lemma annotate_keeps_annotation_object_witness :
  annotatable heap_two 2 = true ∧
  annotation_of heap_two 2 = Some 2 ∧
  ∃ h',
    _annotate_input_qspec_map (H := init_empty_dict) 2 1 (QObj 5) heap_two
      = Some h' ∧
    annotation_of h' 2 = Some 2 ∧
    ∀ d, get_input_qspec_map 2 heap_two = Some (Some d) →
         get_input_qspec_map 2 h' = Some (Some d).
Proof.
  split; [reflexivity|]. split; [reflexivity|].
  apply (@annotate_keeps_annotation_object init_empty_dict heap_two 2 2 1
           (QObj 5));
    reflexivity.
Defined.

Lemma annotate_seen_through_shared_annotation_witness :
  annotatable heap_shared 1 = true ∧
  annotation_of heap_shared 1 = Some 1 ∧
  annotation_of heap_shared 2 = Some 1 ∧
  ∃ h',
    _annotate_input_qspec_map (H := init_none) 1 3 (QObj 5) heap_shared
      = Some h' ∧
    input_qspec_map_of h' 2
      = Some (<[3 := QObj 5]> (entries_before (H := init_none) heap_shared 1)).
Proof.
  split; [reflexivity|]. split; [reflexivity|]. split; [reflexivity|].
  apply (@annotate_seen_through_shared_annotation init_none heap_shared 1 2 1
           3 (QObj 5));
    reflexivity.
Defined.

Lemma annotate_input_replaces_None_map_witness :
  nodes heap_two !! 1 = Some (mkNode [2] (<[qa_key := MAnnotation 1]> ∅)) ∧
  meta (mkNode [2] (<[qa_key := MAnnotation 1]> ∅)) !! qa_key
    = Some (MAnnotation 1) ∧
  annotations heap_two !! 1 = Some (mkQA None (QObj 9)) ∧
  ∃ h' d,
    _annotate_input_qspec_map (H := init_empty_dict) 1 3 (QObj 5) heap_two
      = Some h' ∧
    (d ∉ dom (dicts heap_two)) ∧
    annotation_of h' 1 = Some 1 ∧
    annotations h' !! 1 = Some (mkQA (Some d) (QObj 9)) ∧
    dicts h' !! d = Some {[3 := QObj 5]}.
Proof.
  split; [reflexivity|]. split; [reflexivity|]. split; [reflexivity|].
  apply (@annotate_input_replaces_None_map init_empty_dict heap_two 1
           (mkNode [2] (<[qa_key := MAnnotation 1]> ∅)) 1 (QObj 9) 3 (QObj 5));
    reflexivity.
Defined.

Lemma heap_two_unshared : unshared heap_two 1 2.
Proof.
  intros a b Ha Hb. vm_compute in Ha, Hb.
  injection Ha as <-. injection Hb as <-. split; [discriminate|].
  intros d Hd. vm_compute in Hd. discriminate Hd.
Defined.

Lemma annotate_leaves_unshared_node_alone_witness :
  annotatable heap_two 1 = true ∧
  annotatable heap_two 2 = true ∧
  2 ≠ 1 ∧
  unshared heap_two 1 2 ∧
  ∃ h',
    _annotate_input_qspec_map (H := init_empty_dict) 1 3 (QObj 5) heap_two
      = Some h' ∧
    output_qspec_of h' 2 = output_qspec_of heap_two 2 ∧
    input_qspec_map_of h' 2 = input_qspec_map_of heap_two 2.
Proof.
  split; [reflexivity|]. split; [reflexivity|]. split; [discriminate|].
  split; [exact heap_two_unshared|].
  apply (@annotate_leaves_unshared_node_alone init_empty_dict heap_two 1 2 3
           (QObj 5));
    [reflexivity | reflexivity | discriminate | exact heap_two_unshared].
Defined.

Lemma annotate_input_output_commute_witness :
  annotatable heap0 1 = true ∧
  ∃ hio hoi,
    (_annotate_input_qspec_map (H := init_none) 1 2 (QObj 5) heap0
       ≫= _annotate_output_qspec (H := init_none) 1 (QObj 6)) = Some hio ∧
    (_annotate_output_qspec (H := init_none) 1 (QObj 6) heap0
       ≫= _annotate_input_qspec_map (H := init_none) 1 2 (QObj 5))
      = Some hoi ∧
    input_qspec_map_of hio 1
      = Some (<[2 := QObj 5]> (entries_before (H := init_none) heap0 1)) ∧
    input_qspec_map_of hoi 1
      = Some (<[2 := QObj 5]> (entries_before (H := init_none) heap0 1)) ∧
    output_qspec_of hio 1 = Some (QObj 6) ∧
    output_qspec_of hoi 1 = Some (QObj 6).
Proof.
  split; [reflexivity|].
  apply (@annotate_input_output_commute init_none heap0 1 2 (QObj 5) (QObj 6)).
  reflexivity.
Defined.

Lemma annotate_input_order_irrelevant_witness :
  annotatable heap0 1 = true ∧
  2 ≠ 3 ∧
  ∃ h12 h21 m,
    (_annotate_input_qspec_map (H := init_empty_dict) 1 2 (QObj 5) heap0
       ≫= _annotate_input_qspec_map (H := init_empty_dict) 1 3 (QObj 6))
      = Some h12 ∧
    (_annotate_input_qspec_map (H := init_empty_dict) 1 3 (QObj 6) heap0
       ≫= _annotate_input_qspec_map (H := init_empty_dict) 1 2 (QObj 5))
      = Some h21 ∧
    input_qspec_map_of h12 1 = Some m ∧
    input_qspec_map_of h21 1 = Some m ∧
    output_qspec_of h12 1 = output_qspec_of h21 1.
Proof.
  split; [reflexivity|]. split; [discriminate|].
  apply (@annotate_input_order_irrelevant init_empty_dict heap0 1 2 3
           (QObj 5) (QObj 6));
    [reflexivity | discriminate].
Defined.

Lemma annotate_idempotent_witness :
  annotatable heap0 1 = true ∧
  ∃ h1 h2,
    _annotate_input_qspec_map (H := init_empty_dict) 1 2 (QObj 5) heap0
      = Some h1 ∧
    _annotate_input_qspec_map (H := init_empty_dict) 1 2 (QObj 5) h1
      = Some h2 ∧
    input_qspec_map_of h2 1 = input_qspec_map_of h1 1 ∧
    output_qspec_of h2 1 = output_qspec_of h1 1 ∧
    annotation_of h2 1 = annotation_of h1 1.
Proof.
  split; [reflexivity|].
  apply (@annotate_idempotent init_empty_dict heap0 1 2 (QObj 5)).
  reflexivity.
Defined.

Lemma annotate_inputs_last_write_wins_witness :
  annotatable heap0 1 = true ∧
  ∃ h',
    annotate_inputs (H := init_empty_dict) 1
      [(2, QObj 5); (3, QObj 6); (2, QObj 7)] heap0 = Some h' ∧
    output_before (H := init_empty_dict) h' 1
      = output_before (H := init_empty_dict) heap0 1 ∧
    (∀ l1 i q l2,
       [(2, QObj 5); (3, QObj 6); (2, QObj 7)] = (l1 ++ (i, q) :: l2)%list →
       i ∉ l2.*1 →
       ∃ m, input_qspec_map_of h' 1 = Some m ∧ m !! i = Some q) ∧
    (∀ i, i ∉ [(2, QObj 5); (3, QObj 6); (2, QObj 7)].*1 →
       entries_before (H := init_empty_dict) h' 1 !! i
         = entries_before (H := init_empty_dict) heap0 1 !! i).
Proof.
  split; [reflexivity|].
  apply (@annotate_inputs_last_write_wins init_empty_dict heap0 1
           [(2, QObj 5); (3, QObj 6); (2, QObj 7)]).
  reflexivity.
Defined.

Lemma annotate_preserves_node_only_used_for_sym_size_witness :
  annotatable heap0 1 = true ∧
  ∃ h',
    _annotate_input_qspec_map (H := init_empty_dict) 1 2 (QObj 5) heap0
      = Some h' ∧
    _node_only_used_for_sym_size (H := no_sym_size_node) 1 [2] h'
      = _node_only_used_for_sym_size (H := no_sym_size_node) 1 [2] heap0.
Proof.
  split; [reflexivity|].
  apply (@annotate_preserves_node_only_used_for_sym_size init_empty_dict
           no_sym_size_node heap0 1 2 (QObj 5) 1 [2]).
  reflexivity.
Defined.

Lemma raising_accessor_is_retried_witness :
  accessor (H0 := fx_recompile_raises) Conv2dRelu world0_raising
    = (Raise "recompile"%string,
       mkWorld (H0 := fx_recompile_raises) 3%nat ∅ ∅) ∧
  caches (mkWorld (H0 := fx_recompile_raises) 3%nat ∅ ∅)
    = caches world0_raising ∧
  matchers (mkWorld (H0 := fx_recompile_raises) 3%nat ∅ ∅)
    = matchers world0_raising ∧
  caches (mkWorld (H0 := fx_recompile_raises) 3%nat ∅ ∅) !! Conv2dRelu
    = None ∧
  accessor (H0 := fx_recompile_raises) Conv2dRelu
      (mkWorld (H0 := fx_recompile_raises) 3%nat ∅ ∅) =
    match accessor_body (H0 := fx_recompile_raises) Conv2dRelu
            (mkWorld (H0 := fx_recompile_raises) 3%nat ∅ ∅) with
    | (Ok l, w2) =>
        (Ok l,
         mkWorld (ext w2) (matchers w2) (<[Conv2dRelu := l]> (caches w2)))
    | (Raise e', w2) => (Raise e', w2)
    end.
Proof.
  split; [reflexivity|].
  apply (raising_accessor_is_retried (H0 := fx_recompile_raises)
           Conv2dRelu world0_raising "recompile"%string
           (mkWorld (H0 := fx_recompile_raises) 3%nat ∅ ∅)).
  reflexivity.
Defined.

Lemma accessor_touches_own_cache_only_witness :
  accessor (H0 := fx_counting) Conv2dRelu world0
    = (Ok 1%positive, world_after Conv2dRelu world0) ∧
  (∀ g, g ≠ Conv2dRelu →
     caches (world_after Conv2dRelu world0) !! g = caches world0 !! g) ∧
  (∀ l m, matchers world0 !! l = Some m →
     matchers (world_after Conv2dRelu world0) !! l = Some m).
Proof.
  split; [reflexivity|].
  apply (accessor_touches_own_cache_only (H0 := fx_counting)
           Conv2dRelu world0 (Ok 1%positive)
           (world_after Conv2dRelu world0)).
  reflexivity.
Defined.

